(** * Word-timing engine of [audio/tts.py]

    A shallow embedding of the three pure stages of [TextToSpeech]:

    - [_generate_approximate_word_timings]  (the estimator),
    - [_expand_numeric_references]          (the expander),
    - [_fix_reference_order]                (the corrector),

    together with the Python built-ins they call ([str.split], [str.strip],
    [str.find], [re.match], [re.search], [re.findall], [int(float(w))], ...).

    Around them: the path of [_generate_speech_elevenlabs] that chains the
    three stages, [_detect_content_type] and the voice settings it selects,
    [_get_cache_key], the audio cache
    ([_get_cached_audio], [_cache_audio]), the choice of the default voice
    and the lookup of a voice, and the parameters [generate_media] of
    [media/gemini_client.py] builds from a configuration.

    The loop of the expander is also given round by round ([Rounds]), to
    speak of an entry wherever the loop comes to it, and the estimator
    also as the call Python makes of it ([Raising]), where a division by
    zero raises.

    Conventions of the embedding.

    - A Python [str] is a list of characters.  A character is a code point
      below 256, held in an [ascii]: there [\d] is [0-9], and the white
      space of [str.split()] and [str.strip()] is 9-13, 28-32, 133 and 160.
      Text with code points from 256 on is outside the embedding.
    - A timing entry is the tuple [(word, start, end)].
    - Times are Python floats.  The functions are written once over an
      interface [Arith] for the arithmetic they use.  The arithmetic of the
      program is the instance [Binary64.binary64]: IEEE-754 binary64, with
      the [ZeroDivisionError] of a zero divisor in [Raising].  The exact
      rationals [Q_arith] are an idealisation of it: they never round,
      overflow or underflow.  The properties that only copy times hold for
      every instance; the ones that compute with them are proved for the
      exact rationals and say so, and where the floats of the program part
      from them the statement that fails is evaluated in binary64.
    - [int(float(w))] is modelled with the IEEE-754 binary64 rounding Python
      applies, including the [OverflowError] of [int(inf)]. *)

From Stdlib Require Import Ascii String List ZArith QArith Qabs Qminmax Lia Bool Arith.
From Stdlib Require Import DecimalString.
From Stdlib Require Import Lqa Permutation Sorted.
From Stdlib Require Import Floats Uint63.
Import ListNotations.

Set Implicit Arguments.

(** ** Python strings *)

Module Py.

Definition str := list ascii.

(** String literals of the development. *)
Definition lit (s : string) : str := list_ascii_of_string s.

Definition chr_eqb (a b : ascii) : bool := Ascii.eqb a b.

(** [c.isspace()] for a code point below 256. *)
Definition isspace (c : ascii) : bool :=
  let n := nat_of_ascii c in
  ((9 <=? n) && (n <=? 13)) || ((28 <=? n) && (n <=? 32))
  || (n =? 133) || (n =? 160).

(** The characters [\d] matches among the code points below 256. *)
Definition isdigit (c : ascii) : bool :=
  let n := nat_of_ascii c in (48 <=? n) && (n <=? 57).

(** [c in word] *)
Definition contains (c : ascii) (w : str) : bool := existsb (chr_eqb c) w.

(** [w.startswith(p)] *)
Fixpoint startswith (w p : str) : bool :=
  match p, w with
  | [], _ => true
  | _ :: _, [] => false
  | a :: p', b :: w' => chr_eqb a b && startswith w' p'
  end.

(** [w.lstrip(chars)] and [w.strip(chars)] for a predicate on characters. *)
Fixpoint lstrip_by (p : ascii -> bool) (w : str) : str :=
  match w with
  | [] => []
  | c :: w' => if p c then lstrip_by p w' else w
  end.

Definition rstrip_by (p : ascii -> bool) (w : str) : str :=
  rev (lstrip_by p (rev w)).

Definition strip_by (p : ascii -> bool) (w : str) : str :=
  rstrip_by p (lstrip_by p w).

(** [w.strip()] *)
Definition strip (w : str) : str := strip_by isspace w.

(** [w.strip(c)] for a one-character argument. *)
Definition strip_chr (c : ascii) (w : str) : str := strip_by (chr_eqb c) w.

(** [text.split()]: maximal runs of characters that are not white space.
    [cur] is the run being read, in reverse. *)
Fixpoint split_from (cur : str) (s : str) : list str :=
  match s with
  | [] => match cur with [] => [] | _ => [rev cur] end
  | c :: s' =>
      if isspace c
      then match cur with
           | [] => split_from [] s'
           | _ => rev cur :: split_from [] s'
           end
      else split_from (c :: cur) s'
  end.

Definition split (s : str) : list str := split_from [] s.

(** [w.split(sep)] for a one-character separator: empty fields are kept. *)
Fixpoint split_on_from (sep : ascii) (cur : str) (s : str) : list str :=
  match s with
  | [] => [rev cur]
  | c :: s' =>
      if chr_eqb c sep
      then rev cur :: split_on_from sep [] s'
      else split_on_from sep (c :: cur) s'
  end.

Definition split_on (sep : ascii) (s : str) : list str := split_on_from sep [] s.

(** [' '.join(words)] *)
Fixpoint join_space (ws : list str) : str :=
  match ws with
  | [] => []
  | [w] => w
  | w :: ws' => w ++ " "%char :: join_space ws'
  end.

(** [text.find(sub)]: the lowest index where [sub] occurs, [-1] if none. *)
Fixpoint find_from (i : Z) (s sub : str) : Z :=
  if startswith s sub then i
  else match s with
       | [] => (-1)%Z
       | _ :: s' => find_from (i + 1) s' sub
       end.

Definition find (s sub : str) : Z := find_from 0 s sub.

(** [w.endswith(p)] *)
Definition endswith (w p : str) : bool := startswith (rev w) (rev p).

(** [s[:n]] for [n >= 0] and the slices [l[a:b]], [l[a:]] on lists, with
    indices that are not negative. *)
Definition upto {A} (n : nat) (l : list A) : list A := firstn n l.
Definition from {A} (n : nat) (l : list A) : list A := skipn n l.
Definition slice {A} (a b : nat) (l : list A) : list A := firstn (b - a) (skipn a l).

(** [str(n)] for an integer. *)
Definition str_of_Z (n : Z) : str :=
  list_ascii_of_string (NilZero.string_of_int (Z.to_int n)).

End Py.

(** ** Regular expressions of the [re] module *)

Module Re.
Import Py.

(** The fragment of [re] syntax the source uses.  Repetition is only ever
    applied to a character class, and groups only to [(...)?]. *)
Inductive regex : Type :=
| Eps : regex
| Chr : (ascii -> bool) -> regex        (* one character of a class *)
| Star : (ascii -> bool) -> regex       (* [c*], greedy *)
| Seq : regex -> regex -> regex
| Opt : regex -> regex                  (* [(r)?], greedy *)
| Eol : regex.                          (* [$] *)

(** [c+] *)
Definition Plus (p : ascii -> bool) : regex := Seq (Chr p) (Star p).

Definition is_chr (c : ascii) : ascii -> bool := chr_eqb c.
Definition not_chr (c : ascii) : ascii -> bool := fun x => negb (chr_eqb c x).

Section Matcher.
Variable A : Type.

(** Greedy [c*] followed by the continuation [k]: the longest run is tried
    first and given back one character at a time. *)
Fixpoint star (p : ascii -> bool) (k : str -> option A) (s : str) : option A :=
  match s with
  | c :: s' =>
      if p c
      then match star p k s' with
           | Some x => Some x
           | None => k s
           end
      else k s
  | [] => k s
  end.

(** The backtracking matcher: [run r s k] tries the ways [r] matches a
    prefix of [s] in the order the [re] engine does and returns the first
    success of [k] on what is left of [s]. *)
Fixpoint run (r : regex) (s : str) (k : str -> option A) : option A :=
  match r with
  | Eps => k s
  | Chr p =>
      match s with
      | c :: s' => if p c then k s' else None
      | [] => None
      end
  | Star p => star p k s
  | Seq a b => run a s (fun s' => run b s' k)
  | Opt a =>
      match run a s k with
      | Some x => Some x
      | None => k s
      end
  | Eol =>
      (* end of the string, or just before a newline that ends it *)
      match s with
      | [] => k s
      | [c] => if chr_eqb c "010"%char then k s else None
      | _ => None
      end
  end.
End Matcher.

(** [pattern.match(s)]: a match at the start of [s]; the result is what
    follows the match.  A leading [^] always holds there, so the patterns
    below are written without it. *)
Definition match_prefix (r : regex) (s : str) : option str := run r s (@Some str).

Definition matches (r : regex) (s : str) : bool :=
  match match_prefix r s with Some _ => true | None => false end.

(** [pattern.search(s)]: a match starting anywhere in [s]. *)
Fixpoint search (r : regex) (s : str) : bool :=
  matches r s ||
  match s with
  | [] => false
  | _ :: s' => search r s'
  end.

(** [re.findall(pattern, s)] for a pattern without groups: the matched
    substrings, scanning left to right without overlap.  [fuel] bounds the
    number of scan positions. *)
Fixpoint findall_from (fuel : nat) (r : regex) (s : str) : list str :=
  match fuel with
  | O => []
  | S fuel' =>
      match match_prefix r s with
      | Some rest =>
          let m := firstn (length s - length rest) s in
          match m, s with
          | _ :: _, _ => m :: findall_from fuel' r rest
          | [], _ :: s' => m :: findall_from fuel' r s'
          | [], [] => [m]
          end
      | None =>
          match s with
          | [] => []
          | _ :: s' => findall_from fuel' r s'
          end
      end
  end.

Definition findall (r : regex) (s : str) : list str :=
  findall_from (S (length s)) r s.

(** [r'^\d+:\d+(-\d+)?$'] *)
Definition verse_reference_pattern : regex :=
  Seq (Plus isdigit)
    (Seq (Chr (is_chr ":"%char))
       (Seq (Plus isdigit)
          (Seq (Opt (Seq (Chr (is_chr "-"%char)) (Plus isdigit))) Eol))).

(** [r'^\d+(\.\d+)?$'] *)
Definition numeric_pattern : regex :=
  Seq (Plus isdigit)
    (Seq (Opt (Seq (Chr (is_chr "."%char)) (Plus isdigit))) Eol).

(** [r'\([^)]*\d+:\d+[^)]*\)'] *)
Definition citation_pattern : regex :=
  Seq (Chr (is_chr "("%char))
    (Seq (Star (not_chr ")"%char))
       (Seq (Plus isdigit)
          (Seq (Chr (is_chr ":"%char))
             (Seq (Plus isdigit)
                (Seq (Star (not_chr ")"%char)) (Chr (is_chr ")"%char))))))).

End Re.

(** ** [int(float(word))] *)

Module Float64.
Import Py.
Local Open Scope Z_scope.

(** What a Python call does: it returns a value or raises. *)
Inductive exn : Type :=
| OverflowError      (* [int(float('inf'))] *)
| ValueError         (* [float] of a string that is not a number *)
| EmptyInputError    (* the error kind the specification names for an empty text *)
| ZeroDivisionError. (* a division by a float equal to zero *)

Inductive outcome (A : Type) : Type :=
| Returns : A -> outcome A
| Raises : exn -> outcome A.
Arguments Raises {A} _.

Definition bind {A B} (m : outcome A) (f : A -> outcome B) : outcome B :=
  match m with
  | Returns a => f a
  | Raises e => Raises e
  end.

Definition fmap {A B} (f : A -> B) (m : outcome A) : outcome B :=
  bind m (fun a => Returns (f a)).

(** Decimal digits, most significant first. *)
Definition digit_value (c : ascii) : Z := Z.of_nat (nat_of_ascii c) - 48.

Definition digits_value (ds : str) : Z :=
  fold_left (fun acc c => 10 * acc + digit_value c) ds 0.

(** The leading digits of a string and what follows them. *)
Fixpoint span_digits (s : str) : str * str :=
  match s with
  | c :: s' =>
      if isdigit c
      then let (ds, rest) := span_digits s' in (c :: ds, rest)
      else ([], s)
  | [] => ([], [])
  end.

(** The value of an unsigned decimal numeral [ddd] or [ddd.ddd], as a
    fraction [(n, d)] of integers.  [float] strips white space around its
    argument first.  Other spellings [float] accepts (signs, exponents,
    [inf], ...) never pass [numeric_pattern] and are left out. *)
Definition decimal_value (w : str) : option (Z * Z) :=
  let (ip, rest) := span_digits (strip w) in
  match ip, rest with
  | _ :: _, [] => Some (digits_value ip, 1)
  | _ :: _, "."%char :: fp =>
      match fp with
      | _ :: _ =>
          if forallb isdigit fp
          then Some (digits_value (ip ++ fp), 10 ^ Z.of_nat (length fp))
          else None
      | [] => None
      end
  | _, _ => None
  end.

(** Round the fraction [a / b], [a >= 0] and [b > 0], to the nearest
    integer, ties to even. *)
Definition round_half_even (a b : Z) : Z :=
  let q := a / b in
  let r := a mod b in
  if 2 * r <? b then q
  else if b <? 2 * r then q + 1
  else if Z.even q then q else q + 1.

(** [floor (log2 (n / d))] for [n, d > 0]. *)
Definition floor_log2 (n d : Z) : Z :=
  let e0 := Z.log2 n - Z.log2 d in
  let ge := if 0 <=? e0 then d * 2 ^ e0 <=? n else d <=? n * 2 ^ (- e0) in
  if ge then e0 else e0 - 1.

(** [int(x)] for the binary64 float [x] nearest to [n / d] (ties to even),
    [n >= 0] and [d > 0]: [x] is [m * 2 ^ (e - 52)] with a 53-bit [m], and
    [int] truncates it.  Fractions below one half round to a float below
    one, whatever its exponent.  At [2 ^ 1024] and beyond the float is
    [inf], which [int] refuses. *)
Definition int_of_binary64 (n d : Z) : outcome Z :=
  if 2 * n <? d then Returns 0
  else
    let e := floor_log2 n d in
    let sh := 52 - e in
    let m := if 0 <=? sh
             then round_half_even (n * 2 ^ sh) d
             else round_half_even n (d * 2 ^ (- sh)) in
    if 2 ^ 1024 <=? (if 0 <=? sh then m / 2 ^ sh else m * 2 ^ (- sh))
    then Raises OverflowError
    else Returns (if 0 <=? sh then m / 2 ^ sh else m * 2 ^ (- sh)).

(** [int(float(w))] *)
Definition int_float (w : str) : outcome Z :=
  match decimal_value w with
  | Some (n, d) => int_of_binary64 n d
  | None => Raises ValueError
  end.

End Float64.

(** ** Float arithmetic *)

(** The operations on floats the three stages use.  [of_int] is the
    conversion Python applies to an [int] operand, [float_lit] a float
    literal of the source given by its decimal value, [ltb a b] the test
    [a < b]. *)
Class Arith (F : Type) : Type := {
  of_int : Z -> F;
  float_lit : Q -> F;
  add : F -> F -> F;
  sub : F -> F -> F;
  mul : F -> F -> F;
  div : F -> F -> F;
  ltb : F -> F -> bool;
  fabs : F -> F
}.

(** Exact arithmetic: the operations of the source read over the
    rationals, without the rounding, overflow and underflow of floats and
    with no divisor checked.  It is not the arithmetic of the program,
    which is [Binary64.binary64]; a property proved at this instance is a
    property of the formulas of the source, and is stated as such. *)
Definition Qltb (a b : Q) : bool :=
  (Qnum a * QDen b <? Qnum b * QDen a)%Z.

#[export] Instance Q_arith : Arith Q := {
  of_int := inject_Z;
  float_lit := fun q => q;
  add := Qplus;
  sub := Qminus;
  mul := Qmult;
  div := Qdiv;
  ltb := Qltb;
  fabs := Qabs
}.

Section Builtins.
Context {F : Type} `{Arith F}.

(** [max(a, b)] and [min(a, b)]: the first argument is kept unless the
    second one is strictly larger (smaller). *)
Definition pymax (a b : F) : F := if ltb a b then b else a.
Definition pymin (a b : F) : F := if ltb b a then b else a.

(** [sum(xs)]: the additions start from the integer [0]. *)
Definition pysum (xs : list F) : F := fold_left add xs (of_int 0).

(** [len(x)] as a float operand. *)
Definition len_f {A} (l : list A) : F := of_int (Z.of_nat (length l)).
End Builtins.

(** ** Timing lists *)

(** An entry [(word, start_time, end_time)] of [List[Tuple[str, float, float]]]. *)
Abbreviation timing F := (Py.str * F * F)%type (only parsing).

Definition word_of {F} (t : timing F) : Py.str := fst (fst t).
Definition start_of {F} (t : timing F) : F := snd (fst t).
Definition end_of {F} (t : timing F) : F := snd t.

(** [word_timings[-1][2]], with [d] standing for it when the list is empty. *)
Fixpoint last_end {F} (word_timings : list (timing F)) (d : F) : F :=
  match word_timings with
  | [] => d
  | t :: rest => last_end rest (end_of t)
  end.

(** ** The estimator: [_generate_approximate_word_timings] *)

Module Estimator.
Import Py Re.

Section Estimate.
Context {F : Type} `{Arith F}.

(** The three branches of the first pass, lines 603-620. *)
Definition verse_factor (word : str) : F :=
  let base_factor := div (len_f word) (of_int 5) in
  let adjusted_factor := mul base_factor (float_lit 3%Q) in
  pymax (float_lit 0.5%Q) (pymin (float_lit 4%Q) adjusted_factor).

Definition numeric_factor (word : str) : F :=
  let base_factor := div (len_f word) (of_int 5) in
  let adjusted_factor := mul base_factor (float_lit 2%Q) in
  pymax (float_lit 0.5%Q) (pymin (float_lit 3%Q) adjusted_factor).

Definition regular_factor (word : str) : F :=
  let word_length_factor := div (len_f word) (of_int 5) in
  pymax (float_lit 0.5%Q) (pymin (float_lit 2%Q) word_length_factor).

Definition word_length_factor (word : str) : F :=
  if matches verse_reference_pattern word then verse_factor word
  else if matches numeric_pattern word then numeric_factor word
  else regular_factor word.

(** A word whose index the first pass records in [special_case_indices]. *)
Definition is_special (word : str) : bool :=
  if matches verse_reference_pattern word then true
  else if matches numeric_pattern word then true
  else false.

Fixpoint special_case_indices_from (i : nat) (words : list str) : list nat :=
  match words with
  | [] => []
  | word :: rest =>
      if is_special word
      then i :: special_case_indices_from (S i) rest
      else special_case_indices_from (S i) rest
  end.

Definition special_case_indices (words : list str) : list nat :=
  special_case_indices_from 0 words.

(** [initial_durations] at the end of the first pass, line 622. *)
Definition initial_durations (words : list str) (duration : F) : list F :=
  let avg_word_duration := div duration (len_f words) in
  map (fun word => mul (word_length_factor word) avg_word_duration) words.

(** [initial_durations] after the adjustment of lines 625-635. *)
Definition adjusted_durations (words : list str) (duration : F) : list F :=
  let durations := initial_durations words duration in
  let special := special_case_indices words in
  match special with
  | _ :: _ =>
      if (length special <? length words)%nat
      then
        let total_duration := pysum durations in
        if ltb duration total_duration
        then
          let scale_factor := div duration total_duration in
          map (fun d => mul d scale_factor) durations
        else durations
      else durations
  | [] => durations
  end.

(** The loop of lines 641-644: cumulative start and end times. *)
Fixpoint accumulate (current_time : F) (words : list str) (durations : list F)
  : list (timing F) :=
  match words, durations with
  | word :: words', word_duration :: durations' =>
      (word, current_time, add current_time word_duration)
        :: accumulate (add current_time word_duration) words' durations'
  | _, _ => []
  end.

(** The final normalisation of lines 647-652. *)
Definition normalize (word_timings : list (timing F)) (duration : F)
  : list (timing F) :=
  match word_timings with
  | [] => word_timings
  | _ :: _ =>
      let last_word_end := last_end word_timings duration in
      if ltb (float_lit 0.01%Q) (fabs (sub last_word_end duration))
      then
        let scale_factor := div duration last_word_end in
        map (fun t => (word_of t, mul (start_of t) scale_factor,
                        mul (end_of t) scale_factor)) word_timings
      else word_timings
  end.

Definition _generate_approximate_word_timings (text : str) (duration : F)
  : list (timing F) :=
  let words := split text in
  match words with
  | [] => []
  | _ :: _ =>
      normalize
        (accumulate (float_lit 0%Q) words (adjusted_durations words duration))
        duration
  end.

End Estimate.
End Estimator.

(** ** The expander: [_expand_numeric_references] *)

Module Expander.
Import Py Re Float64.

Section Expand.
Context {F : Type} `{Arith F}.

(** The inner loop of lines 686-693, started at the entry that holds an
    opening parenthesis: the entries read, up to and including the first
    one whose word holds a closing parenthesis, and the entries after it.
    The second component is [None] when the list ends first
    ([j = len(word_timings)]). *)
Fixpoint collect_citation (word_timings : list (timing F))
  : list (timing F) * option (list (timing F)) :=
  match word_timings with
  | [] => ([], None)
  | t :: rest =>
      if contains ")"%char (word_of t)
      then ([t], Some rest)
      else let (parts, after) := collect_citation rest in (t :: parts, after)
  end.

(** Lines 679-702: the merged citation starting at the head of
    [word_timings] and the entries left after it, when there is one. *)
Definition citation_at (word_timings : list (timing F))
  : option (timing F * list (timing F)) :=
  match word_timings with
  | [] => None
  | (word, start_time, end_time) :: _ =>
      if contains "("%char word
      then
        match collect_citation word_timings with
        | (citation_parts, Some rest) =>
            let citation_start := start_time in
            let citation_end := last_end citation_parts end_time in
            let citation_text := join_space (map word_of citation_parts) in
            if search citation_pattern citation_text
            then Some ((citation_text, citation_start, citation_end), rest)
            else None
        | (_, None) => None
        end
      else None
  end.

(** Lines 705-740: what one entry that starts no citation becomes. *)
Definition expand_entry (word : str) (start_time end_time : F)
  : outcome (list (timing F)) :=
  if matches verse_reference_pattern word
  then
    let duration := sub end_time start_time in
    let parts := split_on ":"%char word in
    let chapter := nth 0 parts [] in
    let verse := nth 1 parts [] in
    let chapter_duration := mul duration (float_lit 0.6%Q) in
    if contains "-"%char verse
    then Returns [(chapter, start_time, add start_time chapter_duration);
                  (verse, add start_time chapter_duration, end_time)]
    else Returns [(chapter, start_time, add start_time chapter_duration);
                  (verse, add start_time chapter_duration, end_time)]
  else if matches numeric_pattern word && (1 <? length word)%nat
  then
    let duration := sub end_time start_time in
    bind (int_float word) (fun num =>
      if ((20 <? num) && (num <? 100))%Z
      then
        let tens_digit := (num / 10)%Z in
        let ones_digit := (num mod 10)%Z in
        let first_duration := mul duration (float_lit 0.6%Q) in
        let tens := str_of_Z tens_digit ++ ["0"%char] in
        if (0 <? ones_digit)%Z
        then Returns [(tens, start_time, add start_time first_duration);
                      (str_of_Z ones_digit, add start_time first_duration,
                        end_time)]
        else Returns [(tens, start_time, end_time)]
      else Returns [(word, start_time, end_time)])
  else Returns [(word, start_time, end_time)].

(** The [while] loop of line 675 on the entries from index [i] on.  Each
    round consumes at least one entry, so [fuel] rounds suffice for a list
    of [fuel] entries. *)
Fixpoint expand_loop (fuel : nat) (word_timings : list (timing F))
  : outcome (list (timing F)) :=
  match fuel with
  | O => Returns []
  | S fuel' =>
      match word_timings with
      | [] => Returns []
      | (word, start_time, end_time) :: rest =>
          match citation_at word_timings with
          | Some (citation, after) =>
              fmap (cons citation) (expand_loop fuel' after)
          | None =>
              bind (expand_entry word start_time end_time) (fun emitted =>
                fmap (app emitted) (expand_loop fuel' rest))
          end
      end
  end.

Definition _expand_numeric_references (word_timings : list (timing F))
  : outcome (list (timing F)) :=
  expand_loop (length word_timings) word_timings.

End Expand.
End Expander.

(** ** The corrector: [_fix_reference_order] *)

Module Corrector.
Import Py Re.

Section Correct.
Context {F : Type}.

(** The scan of lines 525-533 from index [i] on, with the value [ref_start]
    has when the round for [i] begins; the result is [(ref_start, ref_end)]
    at the end of the loop, [-1] standing for "not found" as in the
    source.  [key] is [ref_parts[0].strip('(')]. *)
Fixpoint scan_reference (key : str) (i : Z) (ref_start : Z) (words : list str)
  : Z * Z :=
  match words with
  | [] => (ref_start, (-1)%Z)
  | word :: words' =>
      let ref_start :=
        if (0 <? i)%Z && (ref_start =? -1)%Z && startswith word key
        then i else ref_start in
      if negb (ref_start =? -1)%Z
      then
        if endswith word (lit ")") || contains ")"%char word
        then (ref_start, i)
        else scan_reference key (i + 1) ref_start words'
      else scan_reference key (i + 1) ref_start words'
  end.

(** Lines 540-551: cut the entries [ref_start .. ref_end] out and put
    them back at [target_position]. *)
Definition move_reference (word_timings : list (timing F))
    (ref_start ref_end : Z) (target_position : nat) : list (timing F) :=
  let a := Z.to_nat ref_start in
  let b := Z.to_nat (ref_end + 1) in
  let ref_timings := slice a b word_timings in
  let new_timings := upto a word_timings ++ from b word_timings in
  let target_position := Nat.min target_position (length new_timings) in
  upto target_position new_timings ++ ref_timings
    ++ from target_position new_timings.

(** The body of the [for ref in parenthetical_refs] loop, lines 506-553:
    [Some] result when the round returns, [None] when the loop goes on. *)
Definition fix_one (original_text : str) (word_timings : list (timing F))
    (ref : str) : option (list (timing F)) :=
  let words := map word_of word_timings in
  let ref_parts := split ref in
  let first_part := nth 0 ref_parts [] in
  let key := strip_chr "("%char first_part in
  if existsb (fun word => startswith word key) (upto 3 words)
     && negb (startswith (strip original_text) first_part)
  then
    let ref_pos_in_text := find original_text ref in
    if (0 <? ref_pos_in_text)%Z
    then
      let words_before_ref := split (upto (Z.to_nat ref_pos_in_text) original_text) in
      let target_position := length words_before_ref in
      let (ref_start, ref_end) := scan_reference key 0 (-1) words in
      if negb (ref_start =? -1)%Z && negb (ref_end =? -1)%Z
      then Some (move_reference word_timings ref_start ref_end target_position)
      else None
    else None
  else None.

Fixpoint fix_loop (original_text : str) (word_timings : list (timing F))
    (parenthetical_refs : list str) : list (timing F) :=
  match parenthetical_refs with
  | [] => word_timings
  | ref :: refs =>
      match fix_one original_text word_timings ref with
      | Some reordered_timings => reordered_timings
      | None => fix_loop original_text word_timings refs
      end
  end.

Definition _fix_reference_order (original_text : str)
    (word_timings : list (timing F)) : list (timing F) :=
  let parenthetical_refs := findall citation_pattern original_text in
  match parenthetical_refs with
  | [] => word_timings
  | _ :: _ => fix_loop original_text word_timings parenthetical_refs
  end.

End Correct.
End Corrector.

(** ** Reference definitions for the statements *)

Module Spec.
Import Py Re Float64.

(** What a pattern denotes: [lang r pre post] says that [r] can match the
    text [pre] when [post] follows it ([$] looks at what follows). *)
Fixpoint lang (r : regex) (pre post : str) : Prop :=
  match r with
  | Eps => pre = []
  | Chr p => exists c, pre = [c] /\ p c = true
  | Star p => forallb p pre = true
  | Seq a b =>
      exists pre1 pre2,
        pre = pre1 ++ pre2 /\ lang a pre1 (pre2 ++ post) /\ lang b pre2 post
  | Opt a => pre = [] \/ lang a pre post
  | Eol => pre = [] /\ (post = [] \/ post = ["010"%char])
  end.

(** The three token classes of the estimator, in the order of precedence
    the specification gives them. *)
Inductive token_class : Type := VerseReference | StandaloneNumeral | OrdinaryWord.

Definition classify (token : str) : token_class :=
  if matches verse_reference_pattern token then VerseReference
  else if matches numeric_pattern token then StandaloneNumeral
  else OrdinaryWord.

(** [clamp(lo, hi, x)] *)
Definition clamp (lo hi x : Q) : Q := Qmax lo (Qmin hi x).

(** The weight the specification assigns to a token. *)
Definition weight (token : str) : Q :=
  let l := inject_Z (Z.of_nat (length token)) in
  match classify token with
  | VerseReference => clamp 0.5 4 (l / 5 * 3)
  | StandaloneNumeral => clamp 0.5 3 (l / 5 * 2)
  | OrdinaryWord => clamp 0.5 2 (l / 5)
  end.

(** The contracts [estimate], [expand] and [correct] of the specification
    are the three functions of the source.  The estimator has no [raise]
    of its own; [estimate] gives the list it computes when no division
    raises, which is every call in exact arithmetic on a duration above
    zero, see [estimate_divisions_defined].  The call with the
    [ZeroDivisionError] of a zero divisor is
    [Raising._generate_approximate_word_timings]. *)
Definition estimate {F} `{Arith F} (text : str) (totalDuration : F)
  : outcome (list (timing F)) :=
  Returns (Estimator._generate_approximate_word_timings text totalDuration).

Definition expand {F} `{Arith F} (sequence : list (timing F))
  : outcome (list (timing F)) :=
  Expander._expand_numeric_references sequence.

Definition correct {F} (originalText : str) (sequence : list (timing F))
  : list (timing F) :=
  Corrector._fix_reference_order originalText sequence.


Definition above_zero (x : Q) : Prop := 0 < x.

Definition newline : ascii := "010"%char.

(** [numeral ip fp nl] spells [ip], then [.fp] unless [fp] is empty, then
    [nl]. *)
Definition numeral (ip fp nl : str) : str :=
  ip ++ match fp with [] => [] | _ => "."%char :: fp end ++ nl.

(** The point 60% into an entry, as [expand_entry] computes it. *)
Definition split_point {F} `{Arith F} (start_time end_time : F) : F :=
  add start_time (mul (sub end_time start_time) (float_lit 0.6%Q)).

(** The text [f"{tens_digit}0"] of the tens token of [n]. *)
Definition tens_text (n : Z) : str := str_of_Z (n / 10) ++ ["0"%char].

(** A timing list for examples: the [i]-th word lasts from [i] to [i + 1]. *)
Definition entries (words : list string) : list (timing Q) :=
  map (fun '(word, i) =>
         (lit word, inject_Z (Z.of_nat i), inject_Z (Z.of_nat (S i))))
    (combine words (seq 0 (length words))).

End Spec.

(** ** Timelines and the timing path of [_generate_speech_elevenlabs] *)

Module Timeline.
Import Py Re Float64 Spec.

(** [tiles a l b]: the entries of [l] follow one another from time [a] to
    time [b], each starting at the very value the one before ends at, none
    ending before it starts. *)
Fixpoint tiles (a : Q) (l : list (timing Q)) (b : Q) : Prop :=
  match l with
  | [] => a = b
  | t :: l' => start_of t = a /\ start_of t <= end_of t /\ tiles (end_of t) l' b
  end.

Section Path.
Context {F : Type} `{Arith F}.

(** Lines 455-462: the duration measured from the audio file, or the
    estimate [len(text) / 15] when measuring raised; [measured] is what
    [len(audio_segment) / 1000.0] gave, if anything. *)
Definition audio_duration (text : str) (measured : option F) : F :=
  match measured with
  | Some duration => duration
  | None => div (len_f text) (of_int 15)
  end.

(** Lines 464-470: estimate, expand, then reorder. *)
Definition elevenlabs_word_timings (text : str) (duration : F)
  : outcome (list (timing F)) :=
  let approximate_timings :=
    Estimator._generate_approximate_word_timings text duration in
  bind (Expander._expand_numeric_references approximate_timings)
    (fun word_timings =>
       Returns (Corrector._fix_reference_order text word_timings)).

(** Lines 422-425, the test mode: estimate and expand, no reordering. *)
Definition test_mode_word_timings (text : str) (duration : F)
  : outcome (list (timing F)) :=
  let approximate_timings :=
    Estimator._generate_approximate_word_timings text duration in
  Expander._expand_numeric_references approximate_timings.

End Path.

(** [ref_parts[0].strip('(')] of line 507 for a citation [ref]. *)
Definition reference_key (ref : str) : str :=
  strip_chr "("%char (nth 0 (split ref) []).

End Timeline.

(** ** Text helpers: [_detect_content_type] and [_get_cache_key] *)

Module Text.
Import Py.

(** [c.lower()] for a code point below 256: the letters A-Z and the
    capital letters of Latin-1 (192-222 without the sign 215) move up by
    32, everything else stays. *)
Definition lower_chr (c : ascii) : ascii :=
  let n := nat_of_ascii c in
  if ((65 <=? n) && (n <=? 90))
     || ((192 <=? n) && (n <=? 222) && negb (n =? 215))
  then ascii_of_nat (n + 32)
  else c.

(** [s.lower()] *)
Definition lower (s : str) : str := map lower_chr s.

(** [sub in s] for strings. *)
Fixpoint occurs_in (sub s : str) : bool :=
  startswith s sub ||
  match s with
  | [] => false
  | _ :: s' => occurs_in sub s'
  end.

Definition double_quote : str := ["034"%char].

(** Lines 297 and 301: the markers of a scene description and of dialogue. *)
Definition scene_markers : list str :=
  [lit "scene"; lit "visual"; lit "we see"; lit "camera shows"].

Definition dialogue_markers : list str :=
  [double_quote; lit "'"; lit ":"; lit "says"; lit "exclaims"; lit "asks"].

(** Lines 286-305. *)
Definition _detect_content_type (text : str) : str :=
  if existsb (fun marker => occurs_in marker (lower text)) scene_markers
  then lit "descriptive"
  else if existsb (fun marker => occurs_in marker text) dialogue_markers
  then lit "dialogue"
  else lit "narrative".

(** A token: not empty, no white space in it. *)
Definition clean (w : str) : Prop :=
  w <> [] /\ forallb (fun c => negb (isspace c)) w = true.

Section CacheKey.
(** The provider name of the instance, [json.dumps(settings,
    sort_keys=True)] and [hashlib.md5(key_str.encode()).hexdigest()] are
    taken as they come; a settings dictionary is the list of its items. *)
Variable provider_name : str.
Variable V : Type.
Variable json_dumps_sorted : list (str * V) -> str.
Variable md5_hexdigest : str -> str.

(** Lines 247-266; [settings] is [None] by default. *)
Definition _get_cache_key (text voice : str) (settings : option (list (str * V)))
  : str :=
  let text := lower (strip text) in
  let text := join_space (split text) in
  let voice := lower (strip voice) in
  let provider_prefix := lit "provider=" ++ provider_name ++ lit "|" in
  let key_str :=
    match settings with
    | Some (_ :: _ as settings) =>
        let settings_str := json_dumps_sorted settings in
        provider_prefix ++ text ++ lit "|" ++ voice ++ lit "|" ++ settings_str
    | _ => provider_prefix ++ text ++ lit "|" ++ voice
    end in
  md5_hexdigest key_str.
End CacheKey.

End Text.

(** ** Python dictionaries with string keys *)

Module Dict.
Import Py.

(** A dictionary is the list of its items, in insertion order. *)
Definition dict (V : Type) : Type := list (str * V).

Definition str_eqb (a b : str) : bool :=
  if list_eq_dec Ascii.ascii_dec a b then true else false.

(** [d.get(key)]: [None] when the key is missing. *)
Fixpoint get {V} (key : str) (d : dict V) : option V :=
  match d with
  | [] => None
  | (k, v) :: d' => if str_eqb k key then Some v else get key d'
  end.

(** [key in d] *)
Definition has {V} (key : str) (d : dict V) : bool :=
  match get key d with Some _ => true | None => false end.

(** [d[key] = value]: the value of a key that is there is replaced where
    it stands, a new key goes to the end. *)
Fixpoint set {V} (key : str) (value : V) (d : dict V) : dict V :=
  match d with
  | [] => [(key, value)]
  | (k, v) :: d' =>
      if str_eqb k key then (k, value) :: d' else (k, v) :: set key value d'
  end.

(** [del d[key]] *)
Definition del {V} (key : str) (d : dict V) : dict V :=
  filter (fun item => negb (str_eqb (fst item) key)) d.

End Dict.

(** ** The audio cache: [_get_cached_audio] and [_cache_audio] *)

Module Cache.
Import Py.

Section AudioCache.
Context {F : Type} `{Arith F}.

(** A result or a cache entry: a dictionary that may hold the keys
    ["path"], ["word_timings"] and ["duration"]; a field is [None] when
    the key is missing. *)
Record audio : Type := {
  path : option str;
  word_timings : option (list (timing F));
  duration : option F
}.

Inductive raised : Type := KeyError.

Inductive call (A : Type) : Type :=
| Done : A -> call A
| Raised : raised -> call A.
Arguments Raised {A} _.

(** The disk, [str(Path(p))] and the length in seconds of an audio file,
    [None] when [AudioSegment.from_file] raises. *)
Variable file_exists : str -> bool.
Variable path_str : str -> str.
Variable measure_duration : str -> option F.

(** Lines 268-284: the call's result and the cache it leaves. *)
Definition _get_cached_audio (cache : Dict.dict audio) (cache_key : str)
  : call (option audio) * Dict.dict audio :=
  match Dict.get cache_key cache with
  | Some cache_data =>
      match path cache_data with
      | None => (Raised KeyError, cache)
      | Some p =>
          if file_exists p
          then
            (Done (Some {| path := Some (path_str p);
                           word_timings :=
                             Some (match word_timings cache_data with
                                   | Some w => w
                                   | None => []
                                   end);
                           duration :=
                             Some (match duration cache_data with
                                   | Some d => d
                                   | None => float_lit 0%Q
                                   end) |}),
             cache)
          else (Done None, Dict.del cache_key cache)
      end
  | None => (Done None, cache)
  end.

(** Lines 749-755: the duration [result] holds when the function is done
    with it. *)
Definition ensured_duration (result : audio) : F :=
  match duration result with
  | Some d => d
  | None =>
      match path result with
      | Some p =>
          match measure_duration p with
          | Some d => d
          | None => float_lit 0%Q
          end
      | None => float_lit 0%Q
      end
  end.

(** Lines 746-762: the cache the call leaves, or the [KeyError] of
    [result["path"]]. *)
Definition _cache_audio (cache : Dict.dict audio) (cache_key : str)
    (result : audio) : call (Dict.dict audio) :=
  let d := ensured_duration result in
  match path result with
  | None => Raised KeyError
  | Some p =>
      Done (Dict.set cache_key
              {| path := Some p;
                 word_timings :=
                   Some (match word_timings result with
                         | Some w => w
                         | None => []
                         end);
                 duration := Some d |}
              cache)
  end.

End AudioCache.
End Cache.

(** ** Voices: the default voice and the voice a request gets *)

Module Voices.
Import Py Text.

(** [a <= b] on strings: code point by code point, a prefix first. *)
Fixpoint str_leb (a b : str) : bool :=
  match a, b with
  | [], _ => true
  | _ :: _, [] => false
  | x :: a', y :: b' =>
      if (nat_of_ascii x <? nat_of_ascii y)%nat then true
      else if (nat_of_ascii y <? nat_of_ascii x)%nat then false
      else str_leb a' b'
  end.

(** [sorted(names)]: a stable sort, here by insertion. *)
Fixpoint insert_sorted (name : str) (names : list str) : list str :=
  match names with
  | [] => [name]
  | first :: rest =>
      if str_leb name first then name :: names
      else first :: insert_sorted name rest
  end.

Definition sorted (names : list str) : list str :=
  fold_right insert_sorted [] names.

(** [name in names] *)
Definition name_in (name : str) (names : list str) : bool :=
  existsb (Dict.str_eqb name) names.

(** Lines 181-195 and 209-222: the default voice for the names of the
    available voices; [None] stands for the [IndexError] of
    [available_voice_names[0]], which the initialisation turns into
    [TTSError]. *)
Definition default_voice (voice_names : list str) : option str :=
  let available_voice_names := sorted voice_names in
  if name_in (lit "Daniel") available_voice_names
  then Some (lit "Daniel")
  else match available_voice_names with
       | first :: _ => Some first
       | [] => None
       end.

(** A voice of the ElevenLabs client. *)
Record voice : Type := { voice_id : str; name : str }.

(** Lines 398-406: the first voice with the name asked for, case ignored;
    [None] stands for the [TTSError] raised when there is none. *)
Fixpoint find_voice (available_voices : list voice) (voice_name : str)
  : option voice :=
  match available_voices with
  | [] => None
  | v :: rest =>
      if Dict.str_eqb (lower (name v)) (lower voice_name) then Some v
      else find_voice rest voice_name
  end.

(** Line 336: the voice [generate_speech] asks for, whatever its
    [voice_name] argument and whatever the default voice. *)
Definition requested_voice : str := lit "Daniel".

End Voices.

(** ** The generation parameters of the image client: [generate_media] *)

Module Gemini.
Import Py.

Definition GEMINI_MODEL : str := lit "gemini-2.0-flash-exp".

Section Params.
(** The values of a configuration are of any type; the ones the code
    writes are strings, integers and the float [0.8]. *)
Variable V : Type.
Variable of_str : str -> V.
Variable of_int : Z -> V.
Variable temperature_default : V.

(** [config or {}] *)
Definition or_empty (config : option (Dict.dict V)) : Dict.dict V :=
  match config with
  | Some (item :: items) => item :: items
  | _ => []
  end.

(** [d.get(key, default)] *)
Definition get_default (d : Dict.dict V) (key : str) (default : V) : V :=
  match Dict.get key d with
  | Some v => v
  | None => default
  end.

(** Lines 120-128: the dictionary literal. *)
Definition literal_params (prompt : str) (config : Dict.dict V)
  : Dict.dict V :=
  [ (lit "prompt", of_str prompt);
    (lit "model", of_str GEMINI_MODEL);
    (lit "width", get_default config (lit "width") (of_int 1024));
    (lit "height", get_default config (lit "height") (of_int 576));
    (lit "num_outputs", get_default config (lit "num_outputs") (of_int 1));
    (lit "video_format",
     get_default config (lit "video_format") (of_str (lit "landscape")));
    (lit "temperature",
     get_default config (lit "temperature") temperature_default) ].

(** Lines 131-133: one turn of the loop over [config.items()]. *)
Definition add_missing (params : Dict.dict V) (item : str * V)
  : Dict.dict V :=
  if Dict.has (fst item) params then params
  else Dict.set (fst item) (snd item) params.

(** Lines 117-133: the parameters [generate_media] hands to the cache
    handler and to the generator. *)
Definition generation_params (prompt : str)
    (config : option (Dict.dict V)) : Dict.dict V :=
  let config := or_empty config in
  fold_left add_missing config (literal_params prompt config).

End Params.
End Gemini.

(** ** The voice settings of a content type: [__init__] and [generate_speech] *)

Module Settings.
Import Py Text.

(** A value of a settings dictionary: a float, written as the decimal it
    is in the source, or a boolean. *)
Inductive value : Type :=
| Num : Q -> value
| Flag : bool -> value.

(** Lines 89-114: [self.voice_settings]. *)
Definition voice_settings : Dict.dict (Dict.dict (Dict.dict value)) :=
  [ (lit "narrative",
     [(lit "voice_settings",
       [(lit "stability", Num 0.7); (lit "similarity_boost", Num 0.8);
        (lit "style", Num 0.65); (lit "use_speaker_boost", Flag true)])]);
    (lit "descriptive",
     [(lit "voice_settings",
       [(lit "stability", Num 0.85); (lit "similarity_boost", Num 0.7);
        (lit "style", Num 0.35); (lit "use_speaker_boost", Flag true)])]);
    (lit "dialogue",
     [(lit "voice_settings",
       [(lit "stability", Num 0.6); (lit "similarity_boost", Num 0.9);
        (lit "style", Num 0.8); (lit "use_speaker_boost", Flag true)])]) ].

(** Lines 357 and 360:
    [self.voice_settings[content_type]["voice_settings"]] for the content
    type of the text; [None] stands for a [KeyError]. *)
Definition content_settings (normalized_text : str)
  : option (Dict.dict value) :=
  let content_type := _detect_content_type normalized_text in
  match Dict.get content_type voice_settings with
  | Some entry => Dict.get (lit "voice_settings") entry
  | None => None
  end.

End Settings.

(** ** The rounds of the expander's loop *)

Module Rounds.
Import Py Re Float64 Expander.

Section Rounds.
Context {F : Type} `{Arith F}.

(** One round of the [while] loop of line 675 on the entries [pending]
    from index [i] on: the entries it appends to [expanded_timings] and
    the entries it leaves for the next round. *)
Definition round (pending : list (timing F))
  : outcome (list (timing F) * list (timing F)) :=
  match pending with
  | [] => Returns ([], [])
  | (word, start_time, end_time) :: rest =>
      match citation_at pending with
      | Some (citation, after) => Returns ([citation], after)
      | None =>
          fmap (fun emitted => (emitted, rest))
            (expand_entry word start_time end_time)
      end
  end.

(** [reaches word_timings expanded pending]: on the input [word_timings]
    some round of the loop starts with [expanded_timings = expanded] and
    the entries [pending] still to read.  An entry inside a citation that
    was merged is never the head of [pending]. *)
Inductive reaches (word_timings : list (timing F))
  : list (timing F) -> list (timing F) -> Prop :=
| reaches_start : reaches word_timings [] word_timings
| reaches_next expanded pending emitted pending' :
    reaches word_timings expanded pending ->
    pending <> [] ->
    round pending = Returns (emitted, pending') ->
    reaches word_timings (expanded ++ emitted) pending'.

End Rounds.
End Rounds.

(** ** The estimator as a call that can raise *)

Module Raising.
Import Py Re Float64 Estimator.

(** [x == 0] on the times. *)
Class ZeroTest (F : Type) : Type := is_zero : F -> bool.

#[global] Instance Q_zero : ZeroTest Q := fun x => (Qnum x =? 0)%Z.

Section Raising.
Context {F : Type} `{Arith F} `{ZeroTest F}.

(** [a / b]: a divisor equal to zero raises [ZeroDivisionError]. *)
Definition truediv (a b : F) : outcome F :=
  if is_zero b then Raises ZeroDivisionError else Returns (div a b).

(** Lines 625-635 with the division of line 632 as Python does it. *)
Definition adjusted_durations (words : list str) (duration : F)
    (initial_durations : list F) : outcome (list F) :=
  let special := special_case_indices words in
  match special with
  | _ :: _ =>
      if (length special <? length words)%nat
      then
        let total_duration := pysum initial_durations in
        if ltb duration total_duration
        then
          bind (truediv duration total_duration) (fun scale_factor =>
            Returns (map (fun d => mul d scale_factor) initial_durations))
        else Returns initial_durations
      else Returns initial_durations
  | [] => Returns initial_durations
  end.

(** Lines 647-652 with the division of line 649 as Python does it. *)
Definition normalize (word_timings : list (timing F)) (duration : F)
  : outcome (list (timing F)) :=
  match word_timings with
  | [] => Returns word_timings
  | _ :: _ =>
      let last_word_end := last_end word_timings duration in
      if ltb (float_lit 0.01%Q) (fabs (sub last_word_end duration))
      then
        bind (truediv duration last_word_end) (fun scale_factor =>
          Returns
            (map (fun t => (word_of t, mul (start_of t) scale_factor,
                             mul (end_of t) scale_factor)) word_timings))
      else Returns word_timings
  end.

(** Lines 574-655, every division by a value of the run checked.  The
    divisions [len(word) / 5] of the first pass are by the constant 5. *)
Definition _generate_approximate_word_timings (text : str) (duration : F)
  : outcome (list (timing F)) :=
  let words := split text in
  match words with
  | [] => Returns []
  | _ :: _ =>
      bind (truediv duration (len_f words)) (fun avg_word_duration =>
        let initial_durations :=
          map (fun word => mul (word_length_factor word) avg_word_duration)
            words in
        bind (adjusted_durations words duration initial_durations)
          (fun initial_durations =>
             normalize (accumulate (float_lit 0%Q) words initial_durations)
               duration))
  end.

End Raising.
End Raising.

(** ** The arithmetic of the program: IEEE-754 binary64 *)

Module Binary64.
Import Py Re Float64.

(** Python's [float] is the binary64 of the machine: [+], [-], [*], [/],
    [<] and [abs] are the operations of IEEE-754, rounded to nearest, ties
    to even, which the kernel's primitive floats compute.  [sum] adds from
    left to right starting at [0], as CPython does up to version 3.11
    (later versions compensate the additions of floats); the statements
    evaluated in binary64 say where they pass through line 627. *)

(** [float(z)] for an integer below [2 ^ 63] in absolute value, rounded to
    the nearest float, ties to even, as Python does it: exact below
    [2 ^ 53], which holds every length and constant of the source. *)
Definition float_of_int (z : Z) : float :=
  match z with
  | Z0 => PrimFloat.zero
  | Zpos _ => PrimFloat.of_uint63 (Uint63.of_Z z)
  | Zneg p => PrimFloat.opp (PrimFloat.of_uint63 (Uint63.of_Z (Zpos p)))
  end.

(** A decimal literal [n / d] of the source is the float nearest to it:
    the quotient of two integers that floats hold exactly, rounded once. *)
Definition float_of_literal (q : Q) : float :=
  PrimFloat.div (float_of_int (Qnum q)) (float_of_int (Zpos (Qden q))).

#[global] Instance binary64 : Arith float := {
  of_int := float_of_int;
  float_lit := float_of_literal;
  add := PrimFloat.add;
  sub := PrimFloat.sub;
  mul := PrimFloat.mul;
  div := PrimFloat.div;
  ltb := PrimFloat.ltb;
  fabs := PrimFloat.abs
}.

(** [x == 0.0], true of [-0.0] as well. *)
#[global] Instance binary64_zero : Raising.ZeroTest float :=
  fun x => PrimFloat.eqb x PrimFloat.zero.

End Binary64.

(** * Properties *)

Import Py Re Float64 Estimator Expander Corrector Spec.
Unset Implicit Arguments.

(** ** Facts about the matcher *)

Section MatcherFacts.
Variable A : Type.
Implicit Types (k : str -> option A) (s pre post : str).

Lemma star_sound p k s x :
  star p k s = Some x ->
  exists pre post, s = pre ++ post /\ forallb p pre = true /\ k post = Some x.
Proof.
  induction s as [|c s IH]; simpl; intros Hs.
  - exists [], []. auto.
  - destruct (p c) eqn:Hc.
    + destruct (star p k s) as [y|] eqn:Hy.
      * inversion Hs; subst y.
        destruct (IH eq_refl) as (pre & post & -> & Hp & Hk).
        exists (c :: pre), post. simpl. rewrite Hc, Hp. auto.
      * exists [], (c :: s). auto.
    + exists [], (c :: s). auto.
Qed.

Lemma star_complete p k pre post x :
  forallb p pre = true -> k post = Some x ->
  exists y, star p k (pre ++ post) = Some y.
Proof.
  induction pre as [|c pre IH]; simpl; intros Hp Hk.
  - destruct post as [|c post]; simpl.
    + eauto.
    + destruct (p c); [destruct (star p k post)|]; eauto.
  - apply andb_prop in Hp. destruct Hp as [Hc Hp].
    rewrite Hc. destruct (IH Hp Hk) as [y ->]. eauto.
Qed.

Lemma run_sound r : forall s k x,
  run r s k = Some x ->
  exists pre post, s = pre ++ post /\ lang r pre post /\ k post = Some x.
Proof.
  induction r as [|p|p|a IHa b IHb|a IHa|]; simpl; intros s k x Hs.
  - exists [], s. auto.
  - destruct s as [|c s]; [discriminate|].
    destruct (p c) eqn:Hc; [|discriminate].
    exists [c], s. eauto 6.
  - apply star_sound in Hs. exact Hs.
  - apply IHa in Hs. destruct Hs as (pre1 & post1 & -> & Ha & Hb).
    apply IHb in Hb. destruct Hb as (pre2 & post & -> & Hb & Hk).
    exists (pre1 ++ pre2), post. rewrite <- app_assoc. eauto 8.
  - destruct (run a s k) as [y|] eqn:Hy.
    + inversion Hs; subst y. apply IHa in Hy.
      destruct Hy as (pre & post & -> & Ha & Hk). eauto 6.
    + exists [], s. auto.
  - destruct s as [|c [|d s]].
    + exists [], []. auto.
    + destruct (chr_eqb c "010") eqn:Hc; [|discriminate].
      apply Ascii.eqb_eq in Hc. subst c. exists [], ["010"%char]. auto.
    + discriminate.
Qed.

Lemma run_complete r : forall pre post k x,
  lang r pre post -> k post = Some x ->
  exists y, run r (pre ++ post) k = Some y.
Proof.
  induction r as [|p|p|a IHa b IHb|a IHa|]; simpl; intros pre post k x Hl Hk.
  - subst pre. eauto.
  - destruct Hl as (c & -> & Hc). simpl. rewrite Hc. eauto.
  - eapply star_complete; eauto.
  - destruct Hl as (pre1 & pre2 & -> & Ha & Hb).
    destruct (IHb _ _ _ _ Hb Hk) as [y Hy].
    rewrite <- app_assoc.
    eapply IHa; [exact Ha|exact Hy].
  - destruct (run a (pre ++ post) k) as [y|] eqn:Hy; [eauto|].
    destruct Hl as [->|Ha]; [eauto|].
    destruct (IHa _ _ _ _ Ha Hk) as [z Hz]. congruence.
  - destruct Hl as [-> [->| ->]]; simpl; eauto.
Qed.
End MatcherFacts.

(** [matches] decides membership in the denotation. *)
Lemma matches_iff r s :
  matches r s = true <-> exists pre post, s = pre ++ post /\ lang r pre post.
Proof.
  unfold matches, match_prefix. split.
  - destruct (run r s (@Some str)) as [x|] eqn:Hx; [|discriminate].
    intros _. apply run_sound in Hx.
    destruct Hx as (pre & post & ? & ? & _). eauto.
  - intros (pre & post & -> & Hl).
    destruct (run_complete str r pre post (@Some str) post Hl eq_refl) as [y ->].
    reflexivity.
Qed.


(** ** The shape of the tokens the patterns accept *)

Lemma lang_plus p pre post :
  lang (Plus p) pre post -> pre <> [] /\ forallb p pre = true.
Proof.
  simpl. intros (pre1 & pre2 & -> & (c & -> & Hc) & Hs).
  simpl. rewrite Hc, Hs. split; [discriminate|reflexivity].
Qed.

Lemma numeric_shape w :
  matches numeric_pattern w = true ->
  exists ip fp nl,
    w = numeral ip fp nl /\ ip <> [] /\ forallb isdigit ip = true /\
    forallb isdigit fp = true /\ (nl = [] \/ nl = [newline]).
Proof.
  intros Hm. apply matches_iff in Hm.
  destruct Hm as (pre & post & -> & Hl).
  unfold numeric_pattern in Hl.
  destruct Hl as (ip & pre2 & -> & Hip & tl & e & -> & Hopt & -> & Hnl).
  apply lang_plus in Hip. destruct Hip as [Hne Hip].
  rewrite app_nil_r.
  destruct Hopt as [->|(dot & fp & -> & (c & -> & Hc) & Hfp)].
  - exists ip, [], post. unfold numeral. simpl. rewrite app_nil_r.
    repeat split; auto.
  - apply lang_plus in Hfp. destruct Hfp as [Hfne Hfp].
    apply Ascii.eqb_eq in Hc. subst c.
    exists ip, fp, post. unfold numeral.
    destruct fp as [|f fp]; [congruence|].
    rewrite ?app_nil_r, <- ?app_assoc. simpl. repeat split; auto.
Qed.

Lemma verse_has_colon w :
  matches verse_reference_pattern w = true -> In ":"%char w.
Proof.
  intros Hm. apply matches_iff in Hm.
  destruct Hm as (pre & post & -> & Hl).
  unfold verse_reference_pattern in Hl.
  destruct Hl as (ch & pre2 & -> & _ & col & pre3 & -> & (c & -> & Hc) & _).
  apply Ascii.eqb_eq in Hc. subst c.
  rewrite !in_app_iff. simpl. tauto.
Qed.

Lemma forallb_digit_In ds c :
  forallb isdigit ds = true -> In c ds -> isdigit c = true.
Proof. intros H Hin. rewrite forallb_forall in H. auto. Qed.

Lemma numeric_no_colon w :
  matches numeric_pattern w = true -> ~ In ":"%char w.
Proof.
  intros Hm Hin. apply numeric_shape in Hm.
  destruct Hm as (ip & fp & nl & -> & _ & Hip & Hfp & Hnl).
  unfold numeral in Hin. rewrite !in_app_iff in Hin.
  destruct Hin as [Hin|[Hin|Hin]].
  - apply (forallb_digit_In _ _ Hip) in Hin. discriminate.
  - destruct fp as [|f fp]; [contradiction|].
    destruct Hin as [Hin|Hin]; [discriminate|].
    apply (forallb_digit_In _ _ Hfp) in Hin. discriminate.
  - destruct Hnl as [->| ->]; [contradiction|].
    destruct Hin as [Hin|[]]. discriminate.
Qed.

Lemma numeric_not_verse w :
  matches numeric_pattern w = true -> matches verse_reference_pattern w = false.
Proof.
  intros Hn. destruct (matches verse_reference_pattern w) eqn:Hv; [|reflexivity].
  exfalso. exact (numeric_no_colon _ Hn (verse_has_colon _ Hv)).
Qed.

(** ** [float(w)] on the tokens [numeric_pattern] accepts *)

Lemma digit_not_space c : isdigit c = true -> isspace c = false.
Proof.
  destruct c as [[] [] [] [] [] [] [] []]; vm_compute; congruence.
Qed.

Lemma digit_value_range c : isdigit c = true -> (0 <= digit_value c <= 9)%Z.
Proof.
  destruct c as [[] [] [] [] [] [] [] []]; vm_compute; intuition congruence.
Qed.

Lemma rstrip_by_keep p s c :
  p c = false -> rstrip_by p (s ++ [c]) = s ++ [c].
Proof.
  intros Hc. unfold rstrip_by. rewrite rev_app_distr. simpl. rewrite Hc.
  simpl. rewrite rev_involutive. reflexivity.
Qed.

Lemma rstrip_by_drop p s c :
  p c = true -> rstrip_by p (s ++ [c]) = rstrip_by p s.
Proof.
  intros Hc. unfold rstrip_by. rewrite rev_app_distr. simpl. rewrite Hc.
  reflexivity.
Qed.

Lemma numeral_ends_in_digit ip fp :
  ip <> [] -> forallb isdigit ip = true -> forallb isdigit fp = true ->
  exists body c, numeral ip fp [] = body ++ [c] /\ isdigit c = true.
Proof.
  intros Hne Hip Hfp. unfold numeral.
  destruct fp as [|f fp].
  - simpl. rewrite app_nil_r.
    destruct (exists_last Hne) as (body & c & ->).
    exists body, c. split; [reflexivity|].
    apply (forallb_digit_In _ c Hip). rewrite in_app_iff. simpl. auto.
  - assert (Hf : f :: fp <> []) by discriminate.
    destruct (exists_last Hf) as (body & c & Heq). rewrite Heq in *.
    exists (ip ++ "."%char :: body), c. split.
    + rewrite app_nil_r, <- app_assoc. reflexivity.
    + apply (forallb_digit_In _ c Hfp). rewrite in_app_iff. simpl. auto.
Qed.

Lemma strip_numeral ip fp nl :
  ip <> [] -> forallb isdigit ip = true -> forallb isdigit fp = true ->
  nl = [] \/ nl = [newline] ->
  strip (numeral ip fp nl) = numeral ip fp [].
Proof.
  intros Hne Hip Hfp Hnl.
  assert (Hsplit : numeral ip fp nl = numeral ip fp [] ++ nl).
  { unfold numeral. rewrite app_nil_r, app_assoc. reflexivity. }
  assert (Hl : lstrip_by isspace (numeral ip fp nl) = numeral ip fp nl).
  { unfold numeral. destruct ip as [|c ip]; [congruence|].
    simpl in Hip. apply andb_prop in Hip. destruct Hip as [Hc _].
    simpl. rewrite (digit_not_space _ Hc). reflexivity. }
  unfold strip, strip_by. rewrite Hl, Hsplit.
  destruct (numeral_ends_in_digit ip fp Hne Hip Hfp) as (body & c & -> & Hc).
  apply digit_not_space in Hc.
  destruct Hnl as [->| ->].
  - rewrite app_nil_r. apply rstrip_by_keep. exact Hc.
  - rewrite rstrip_by_drop by reflexivity. apply rstrip_by_keep. exact Hc.
Qed.

Lemma span_digits_app ds rest :
  forallb isdigit ds = true ->
  match rest with [] => True | c :: _ => isdigit c = false end ->
  span_digits (ds ++ rest) = (ds, rest).
Proof.
  intros Hds Hrest. induction ds as [|d ds IH]; simpl.
  - destruct rest as [|c rest]; [reflexivity|]. simpl. rewrite Hrest. reflexivity.
  - simpl in Hds. apply andb_prop in Hds. destruct Hds as [Hd Hds].
    rewrite Hd, (IH Hds). reflexivity.
Qed.

Lemma digits_value_from_nonneg ds : forall acc,
  forallb isdigit ds = true -> (0 <= acc)%Z ->
  (0 <= fold_left (fun a c => 10 * a + digit_value c) ds acc)%Z.
Proof.
  induction ds as [|d ds IH]; intros acc Hds Hacc; [exact Hacc|].
  cbn [fold_left]. simpl in Hds.
  apply andb_prop in Hds. destruct Hds as [Hd Hds].
  apply IH; [exact Hds|]. pose proof (digit_value_range _ Hd). lia.
Qed.

Lemma digits_value_nonneg ds :
  forallb isdigit ds = true -> (0 <= digits_value ds)%Z.
Proof. intros Hds. apply digits_value_from_nonneg; [exact Hds|lia]. Qed.

(** [float] accepts every token [numeric_pattern] accepts. *)
Lemma decimal_value_numeric w :
  matches numeric_pattern w = true ->
  exists n d, decimal_value w = Some (n, d) /\ (0 <= n)%Z /\ (0 < d)%Z.
Proof.
  intros Hm. apply numeric_shape in Hm.
  destruct Hm as (ip & fp & nl & -> & Hne & Hip & Hfp & Hnl).
  unfold decimal_value. rewrite (strip_numeral ip fp nl Hne Hip Hfp Hnl).
  unfold numeral. rewrite app_nil_r.
  destruct fp as [|f fp].
  - rewrite span_digits_app by (exact Hip || exact I).
    destruct ip as [|c ip]; [congruence|].
    exists (digits_value (c :: ip)), 1%Z.
    split; [reflexivity|]. split; [apply digits_value_nonneg; exact Hip|lia].
  - rewrite span_digits_app by (exact Hip || reflexivity).
    destruct ip as [|c ip]; [congruence|].
    rewrite Hfp.
    exists (digits_value ((c :: ip) ++ f :: fp)), (10 ^ Z.of_nat (length (f :: fp)))%Z.
    split; [reflexivity|]. split.
    + apply digits_value_nonneg. rewrite forallb_app, Hip, Hfp. reflexivity.
    + apply Z.pow_pos_nonneg; lia.
Qed.

(** ** Rounding to binary64 *)

Section Rounding.
Local Open Scope Z_scope.

Lemma round_half_even_bounds (a b : Z) :
  a / b <= round_half_even a b <= a / b + 1.
Proof.
  unfold round_half_even.
  destruct (2 * (a mod b) <? b); [lia|].
  destruct (b <? 2 * (a mod b)); [lia|].
  destruct (Z.even (a / b)); lia.
Qed.

Lemma round_half_even_exact (a : Z) : round_half_even a 1 = a.
Proof.
  unfold round_half_even. rewrite Z.mod_1_r, Z.div_1_r. reflexivity.
Qed.

(** A fraction below [2 ^ 53] has a binary exponent of 52 at most. *)
Lemma floor_log2_small (n d : Z) :
  0 < n -> 0 < d -> n < d * 2 ^ 53 -> floor_log2 n d <= 52.
Proof.
  intros Hn Hd Hlt. unfold floor_log2.
  set (e0 := Z.log2 n - Z.log2 d).
  assert (He0 : e0 <= 53).
  { destruct (Z.log2_spec n Hn) as [Hn1 _].
    destruct (Z.log2_spec d Hd) as [_ Hd2].
    assert (H2 : 2 ^ Z.log2 n < 2 ^ (Z.succ (Z.log2 d) + 53)).
    { rewrite Z.pow_add_r by (pose proof (Z.log2_nonneg d); lia).
      nia. }
    apply Z.pow_lt_mono_r_iff in H2; [unfold e0; lia|lia|].
    pose proof (Z.log2_nonneg d). lia. }
  destruct (0 <=? e0) eqn:Hsign.
  - destruct (d * 2 ^ e0 <=? n) eqn:Hge; [|lia].
    apply Z.leb_le in Hge.
    destruct (Z.eq_dec e0 53) as [->|]; [lia|lia].
  - destruct (d <=? n * 2 ^ (- e0)); lia.
Qed.

(** Below [2 ^ 53], [int(float(x))] is the integer part of [x], or the next
    integer when [x] rounds up to it. *)
Lemma int_of_binary64_near_floor (n d : Z) :
  0 <= n -> 0 < d -> n < d * 2 ^ 53 ->
  exists k, int_of_binary64 n d = Returns k /\ n / d <= k <= n / d + 1.
Proof.
  intros Hn Hd Hlt. unfold int_of_binary64.
  destruct (2 * n <? d) eqn:Hhalf.
  - apply Z.ltb_lt in Hhalf. exists 0. split; [reflexivity|].
    rewrite Z.div_small by lia. lia.
  - apply Z.ltb_ge in Hhalf.
    pose proof (floor_log2_small n d ltac:(lia) Hd Hlt) as He.
    set (sh := 52 - floor_log2 n d) in *.
    assert (Hsh : 0 <= sh) by (unfold sh; lia).
    replace (0 <=? sh) with true by (symmetry; apply Z.leb_le; exact Hsh).
    set (p := 2 ^ sh). assert (Hp : 0 < p) by (apply Z.pow_pos_nonneg; lia).
    pose proof (round_half_even_bounds (n * p) d) as [Hlo Hhi].
    set (m := round_half_even (n * p) d) in *.
    assert (Hq : n * p / d / p = n / d).
    { rewrite Z.div_div by lia.
      rewrite Z.div_mul_cancel_r by lia. reflexivity. }
    assert (Hk1 : n / d <= m / p).
    { rewrite <- Hq. apply Z.div_le_mono; lia. }
    assert (Hk2 : m / p <= n / d + 1).
    { rewrite <- Hq.
      transitivity ((n * p / d + 1 * p) / p).
      - apply Z.div_le_mono; nia.
      - rewrite Z.div_add by lia. lia. }
    assert (Hnd : n / d < 2 ^ 53).
    { apply Z.div_lt_upper_bound; lia. }
    assert (Hbig : (2 ^ 53 + 1 < 2 ^ 1024)) by reflexivity.
    replace (2 ^ 1024 <=? m / p) with false
      by (symmetry; apply Z.leb_gt; lia).
    exists (m / p). split; [reflexivity|lia].
Qed.

(** An integer below [2 ^ 53] is a float: [int(float(n)) = n]. *)
Lemma int_of_binary64_integer (n : Z) :
  0 <= n < 2 ^ 53 -> int_of_binary64 n 1 = Returns n.
Proof.
  intros Hn. unfold int_of_binary64.
  destruct (2 * n <? 1) eqn:Hhalf.
  - apply Z.ltb_lt in Hhalf. f_equal. lia.
  - apply Z.ltb_ge in Hhalf.
    pose proof (floor_log2_small n 1 ltac:(lia) ltac:(lia) ltac:(lia)) as He.
    set (sh := 52 - floor_log2 n 1) in *.
    assert (Hsh : 0 <= sh) by (unfold sh; lia).
    replace (0 <=? sh) with true by (symmetry; apply Z.leb_le; exact Hsh).
    rewrite round_half_even_exact.
    rewrite Z.div_mul by (apply Z.pow_nonzero; lia).
    assert (Hbig : (2 ^ 53 < 2 ^ 1024)) by reflexivity.
    replace (2 ^ 1024 <=? n) with false by (symmetry; apply Z.leb_gt; lia).
    reflexivity.
Qed.

(** On a token [numeric_pattern] accepts, [int(float(token))] is the
    integer part of the numeral or the integer after it, as long as the
    numeral is below [2 ^ 53]. *)
Lemma int_float_integer_part (word : str) :
  matches numeric_pattern word = true ->
  exists n d,
    decimal_value word = Some (n, d) /\ 0 < d /\
    (n < d * 2 ^ 53 ->
     exists k, int_float word = Returns k /\ n / d <= k <= n / d + 1).
Proof.
  intros Hm. destruct (decimal_value_numeric word Hm) as (n & d & Hv & Hn & Hd).
  exists n, d. split; [exact Hv|]. split; [exact Hd|].
  intros Hlt. unfold int_float. rewrite Hv.
  apply int_of_binary64_near_floor; assumption.
Qed.
End Rounding.

(** ** Timing lists *)

Section TimingFacts.
Context {F : Type}.
Implicit Types (l : list (timing F)) (t : timing F) (d : F).

Lemma last_end_app l1 l2 d : last_end (l1 ++ l2) d = last_end l2 (last_end l1 d).
Proof.
  revert d. induction l1 as [|t l1 IH]; intros d; simpl; [reflexivity|apply IH].
Qed.

Lemma last_end_nonempty l d d' : l <> [] -> last_end l d = last_end l d'.
Proof. destruct l as [|t l]; [congruence|reflexivity]. Qed.

Lemma last_end_snoc l t d : last_end (l ++ [t]) d = end_of t.
Proof. rewrite last_end_app. reflexivity. Qed.
End TimingFacts.

(** ** The expander *)


(** Case analysis on the citation test of the round in the goal. *)
Ltac case_citation_at citation after Hc :=
  match goal with
  | |- context [citation_at ?l] =>
      let o := fresh "o" in
      destruct (citation_at l) as [o|] eqn:Hc;
      [destruct o as [citation after]|]
  | H : context [citation_at ?l] |- _ =>
      let o := fresh "o" in
      destruct (citation_at l) as [o|] eqn:Hc;
      [destruct o as [citation after]|]
  end.

Section ExpanderFacts.
Context {F : Type} `{Arith F}.
Implicit Types (ws rest after parts : list (timing F)) (t : timing F).

Lemma collect_citation_found ws parts rest :
  collect_citation ws = (parts, Some rest) ->
  exists body closing,
    parts = body ++ [closing] /\ ws = parts ++ rest /\
    contains ")"%char (word_of closing) = true /\
    forall t, In t body -> contains ")"%char (word_of t) = false.
Proof.
  revert parts rest. induction ws as [|t ws IH]; simpl; intros parts rest Hc.
  - discriminate.
  - destruct (contains ")"%char (word_of t)) eqn:Ht.
    + inversion Hc; subst. exists [], t. simpl. intuition.
    + destruct (collect_citation ws) as [parts' after] eqn:Hws.
      inversion Hc; subst.
      destruct (IH parts' rest eq_refl) as (body & closing & -> & -> & Hcl & Hb).
      exists (t :: body), closing. simpl. repeat split; auto.
      intros u [<-|Hu]; auto.
Qed.

(** The run a citation is read from: entries without a closing
    parenthesis, then one with it. *)
Lemma collect_citation_run body closing rest :
  (forall t, In t body -> contains ")"%char (word_of t) = false) ->
  contains ")"%char (word_of closing) = true ->
  collect_citation (body ++ closing :: rest) = (body ++ [closing], Some rest).
Proof.
  intros Hb Hc. induction body as [|t body IH]; simpl.
  - rewrite Hc. reflexivity.
  - rewrite (Hb t) by (left; reflexivity).
    rewrite IH by (intros u Hu; apply Hb; right; exact Hu). reflexivity.
Qed.

Lemma citation_at_found ws citation after :
  citation_at ws = Some (citation, after) ->
  exists first body closing,
    ws = (body ++ [closing]) ++ after /\
    hd_error (body ++ [closing]) = Some first /\
    citation = (join_space (map word_of (body ++ [closing])),
                start_of first, end_of closing).
Proof.
  unfold citation_at. destruct ws as [|[[word st] en] rest]; [discriminate|].
  destruct (contains "("%char word); [|discriminate].
  match goal with
  | |- context [collect_citation ?l] =>
      destruct (collect_citation l) as [parts o] eqn:Hc
  end.
  destruct o as [rest'|]; [|discriminate].
  destruct (search citation_pattern (join_space (map word_of parts)));
    [|discriminate].
  intros Heq. inversion Heq; subst. clear Heq.
  destruct (collect_citation_found _ _ _ Hc) as (body & closing & -> & Hws & _ & _).
  exists ((word, st), en), body, closing. split; [exact Hws|].
  rewrite last_end_snoc. split; [|reflexivity].
  destruct body; simpl in Hws; inversion Hws; reflexivity.
Qed.

Lemma citation_at_shorter ws citation after :
  citation_at ws = Some (citation, after) -> (length after < length ws)%nat.
Proof.
  intros Hc. apply citation_at_found in Hc.
  destruct Hc as (first & body & closing & -> & _ & _).
  rewrite !length_app. simpl. lia.
Qed.

(** Every round of the loop consumes an entry: more fuel than entries
    changes nothing. *)
Lemma expand_loop_fuel n : forall f1 f2 ws,
  (length ws <= n)%nat -> (n <= f1)%nat -> (n <= f2)%nat ->
  expand_loop f1 ws = expand_loop f2 ws.
Proof.
  induction n as [|n IH]; intros f1 f2 ws Hlen H1 H2.
  - destruct ws; [|simpl in Hlen; lia]. destruct f1, f2; reflexivity.
  - destruct ws as [|[[word st] en] rest]; [destruct f1, f2; reflexivity|].
    destruct f1 as [|f1]; [lia|]. destruct f2 as [|f2]; [lia|].
    simpl in Hlen. cbn [expand_loop].
    case_citation_at citation after Hc.
    + apply citation_at_shorter in Hc. simpl in Hc.
      rewrite (IH f1 f2 after) by lia. reflexivity.
    + rewrite (IH f1 f2 rest) by lia. reflexivity.
Qed.

(** The loop, one round at a time. *)
Lemma expand_nil : _expand_numeric_references (@nil (timing F)) = Returns [].
Proof. reflexivity. Qed.

Lemma expand_cons word start_time end_time rest :
  _expand_numeric_references ((word, start_time, end_time) :: rest) =
  match citation_at ((word, start_time, end_time) :: rest) with
  | Some (citation, after) =>
      fmap (cons citation) (_expand_numeric_references after)
  | None =>
      bind (expand_entry word start_time end_time) (fun emitted =>
        fmap (app emitted) (_expand_numeric_references rest))
  end.
Proof.
  unfold _expand_numeric_references. cbn [length expand_loop].
  case_citation_at citation after Hc.
  - apply citation_at_shorter in Hc. simpl in Hc.
    rewrite (expand_loop_fuel (length after) (length rest) (length after)) by lia.
    reflexivity.
  - reflexivity.
Qed.

(** Whatever an entry becomes ends when the entry ends. *)
Lemma expand_entry_last_end word start_time end_time emitted d :
  expand_entry word start_time end_time = Returns emitted ->
  emitted <> [] /\ last_end emitted d = end_time.
Proof.
  unfold expand_entry.
  destruct (matches verse_reference_pattern word).
  - destruct (contains "-"%char _); intros Heq; inversion Heq;
      split; [discriminate|reflexivity|discriminate|reflexivity].
  - destruct (matches numeric_pattern word && (1 <? length word)%nat).
    + destruct (int_float word) as [num|e]; simpl; [|discriminate].
      destruct ((20 <? num)%Z && (num <? 100)%Z).
      * destruct (0 <? num mod 10)%Z; intros Heq; inversion Heq;
          split; [discriminate|reflexivity|discriminate|reflexivity].
      * intros Heq; inversion Heq. split; [discriminate|reflexivity].
    + intros Heq; inversion Heq. split; [discriminate|reflexivity].
Qed.

(** Duration conservation (X1): when the expander returns, its output
    ends when its input ends. *)
Lemma expand_last_end ws : forall out d,
  ws <> [] -> _expand_numeric_references ws = Returns out ->
  out <> [] /\ last_end out d = last_end ws d.
Proof.
  remember (length ws) as n eqn:Hn. revert ws Hn.
  induction n as [n IH] using lt_wf_ind. intros ws Hn out d Hne Hout.
  destruct ws as [|[[word st] en] rest]; [congruence|].
  rewrite expand_cons in Hout.
  case_citation_at citation after Hc.
  - pose proof (citation_at_shorter _ _ _ Hc) as Hlt.
    apply citation_at_found in Hc.
    destruct Hc as (first & body & closing & Hws & _ & ->).
    destruct (_expand_numeric_references after) as [out'|e] eqn:Hafter;
      [|discriminate].
    simpl in Hout. inversion Hout; subst out. split; [discriminate|].
    rewrite Hws, !last_end_app. simpl.
    destruct after as [|a after].
    + rewrite expand_nil in Hafter. inversion Hafter. reflexivity.
    + destruct (IH (length (a :: after)) ltac:(subst n; exact Hlt)
                  (a :: after) eq_refl out' (end_of closing)
                  ltac:(discriminate) Hafter) as [_ ->].
      reflexivity.
  - destruct (expand_entry word st en) as [emitted|e] eqn:He; [|discriminate].
    destruct (_expand_numeric_references rest) as [out'|e] eqn:Hrest;
      [|discriminate].
    simpl in Hout. inversion Hout; subst out.
    destruct (expand_entry_last_end _ _ _ _ d He) as [Hemitted Hend].
    split; [destruct emitted; [congruence|discriminate]|].
    rewrite last_end_app. simpl.
    destruct rest as [|a rest].
    + rewrite expand_nil in Hrest. inversion Hrest. simpl. exact Hend.
    + destruct (IH (length (a :: rest)) ltac:(subst n; simpl; lia)
                  (a :: rest) eq_refl out' (last_end emitted d)
                  ltac:(discriminate) Hrest) as [_ ->].
      reflexivity.
Qed.
End ExpanderFacts.

Lemma expand_last_end_witness :
  last_end [(lit "70", 0%Q, split_point 0%Q 1%Q);
            (lit "3", split_point 0%Q 1%Q, 1%Q)] 0%Q
  = last_end [(lit "73", 0%Q, 1%Q)] 0%Q.
Proof.
  apply (expand_last_end [(lit "73", 0%Q, 1%Q)]
           [(lit "70", 0%Q, split_point 0%Q 1%Q);
            (lit "3", split_point 0%Q 1%Q, 1%Q)] 0%Q).
  - discriminate.
  - reflexivity.
Defined.

(** ** Claims about the expander *)

Section ExpanderClaims.
Context {F : Type} `{Arith F}.
Implicit Types (rest body : list (timing F)) (t first closing : timing F).

Lemma numeric_no_paren w :
  matches numeric_pattern w = true -> contains "("%char w = false.
Proof.
  intros Hm. apply numeric_shape in Hm.
  destruct Hm as (ip & fp & nl & -> & _ & Hip & Hfp & Hnl).
  destruct (contains "("%char (numeral ip fp nl)) eqn:Hc; [|reflexivity].
  exfalso. unfold contains in Hc. apply existsb_exists in Hc.
  destruct Hc as (c & Hin & Hc). apply Ascii.eqb_eq in Hc. subst c.
  unfold numeral in Hin. rewrite !in_app_iff in Hin.
  destruct Hin as [Hin|[Hin|Hin]].
  - apply (forallb_digit_In _ _ Hip) in Hin. discriminate.
  - destruct fp as [|f fp]; [contradiction|].
    destruct Hin as [Hin|Hin]; [discriminate|].
    apply (forallb_digit_In _ _ Hfp) in Hin. discriminate.
  - destruct Hnl as [->| ->]; [contradiction|].
    destruct Hin as [Hin|[]]. discriminate.
Qed.

Lemma citation_at_no_paren word start_time end_time rest :
  contains "("%char word = false ->
  citation_at ((word, start_time, end_time) :: rest) = None.
Proof. intros Hc. unfold citation_at. rewrite Hc. reflexivity. Qed.

(** A numeral of one character is a digit. *)
Lemma int_float_digit c :
  isdigit c = true -> exists n, int_float [c] = Returns n /\ (n <= 9)%Z.
Proof.
  destruct c as [[] [] [] [] [] [] [] []]; intros Hc;
    try discriminate Hc; eexists; (split; [vm_compute; reflexivity|lia]).
Qed.

Lemma numeric_short w n :
  matches numeric_pattern w = true -> (length w <= 1)%nat ->
  int_float w = Returns n -> (n <= 9)%Z.
Proof.
  intros Hm Hlen Hn. apply numeric_shape in Hm.
  destruct Hm as (ip & fp & nl & -> & Hne & Hip & Hfp & Hnl).
  unfold numeral in *. rewrite !length_app in Hlen.
  destruct ip as [|c ip]; [congruence|]. simpl in Hlen.
  destruct ip; [|simpl in Hlen; lia].
  destruct fp; [|simpl in Hlen; lia].
  destruct nl; [|simpl in Hlen; lia].
  simpl in Hip. rewrite andb_true_r in Hip.
  destruct (int_float_digit c Hip) as (m & Hm & Hle).
  simpl in Hn. rewrite Hm in Hn. inversion Hn. subst. exact Hle.
Qed.

(** What the expander makes of a numeral entry that stands alone. *)
Lemma expand_numeral_entry word start_time end_time n :
  matches numeric_pattern word = true ->
  int_float word = Returns n ->
  expand [(word, start_time, end_time)] =
  Returns
    (if ((20 <? n) && (n <? 100))%Z
     then if (0 <? n mod 10)%Z
          then [(tens_text n, start_time, split_point start_time end_time);
                (str_of_Z (n mod 10), split_point start_time end_time, end_time)]
          else [(tens_text n, start_time, end_time)]
     else [(word, start_time, end_time)]).
Proof.
  intros Hm Hn. unfold expand. rewrite expand_cons.
  rewrite (citation_at_no_paren _ _ _ _ (numeric_no_paren _ Hm)).
  rewrite expand_nil. unfold expand_entry.
  rewrite (numeric_not_verse _ Hm), Hm. cbn [andb].
  destruct (1 <? length word)%nat eqn:Hlen.
  - rewrite Hn. cbn [bind].
    destruct ((20 <? n) && (n <? 100))%Z; [|reflexivity].
    destruct (0 <? n mod 10)%Z; reflexivity.
  - apply Nat.ltb_ge in Hlen.
    pose proof (numeric_short _ _ Hm Hlen Hn) as Hle.
    replace ((20 <? n) && (n <? 100))%Z with false; [reflexivity|].
    symmetry. apply andb_false_iff. left. apply Z.ltb_ge. lia.
Qed.

(** An entry is expanded unless its numeral overflows [float]. *)
Lemma expand_entry_returns word start_time end_time :
  int_float word <> Raises OverflowError ->
  exists emitted, expand_entry word start_time end_time = Returns emitted.
Proof.
  intros Hov. unfold expand_entry.
  destruct (matches verse_reference_pattern word).
  - destruct (contains "-"%char _); eauto.
  - destruct (matches numeric_pattern word) eqn:Hm; cbn [andb]; [|eauto].
    destruct (1 <? length word)%nat; [|eauto].
    destruct (decimal_value_numeric _ Hm) as (n & d & Hd & _ & _).
    unfold int_float in *. rewrite Hd in *. unfold int_of_binary64 in *.
    destruct (2 * n <? d)%Z; cbn [bind].
    + change ((20 <? 0) && (0 <? 100))%Z with false. cbv iota. eauto.
    + match goal with
      | |- context [if ?c then Raises OverflowError else _] => destruct c
      end; [congruence|]. cbn [bind].
      match goal with
      | |- context [if ?c then _ else Returns [(word, _, _)]] => destruct c
      end; [|eauto].
      match goal with
      | |- context [if ?c then _ else _] => destruct c
      end; eauto.
Qed.

(** Totality (X2): the expander returns on every list without a numeral
    that [float] turns into [inf]. *)
Lemma expand_returns ws :
  (forall t, In t ws -> int_float (word_of t) <> Raises OverflowError) ->
  exists out, expand ws = Returns out.
Proof.
  unfold expand. remember (length ws) as n eqn:Hn. revert ws Hn.
  induction n as [n IH] using lt_wf_ind. intros ws Hn Hov.
  destruct ws as [|[[word st] en] rest]; [exists []; reflexivity|].
  rewrite expand_cons. case_citation_at citation after Hc.
  - pose proof (citation_at_shorter _ _ _ Hc) as Hlt.
    apply citation_at_found in Hc.
    destruct Hc as (first & body & closing & Hws & _ & _).
    destruct (IH (length after) ltac:(subst n; exact Hlt) after eq_refl)
      as [out Hout].
    { intros t Ht. apply Hov. rewrite Hws, in_app_iff. right. exact Ht. }
    rewrite Hout. simpl. eauto.
  - destruct (expand_entry_returns word st en) as [emitted ->].
    { apply (Hov (word, st, en)). left. reflexivity. }
    destruct (IH (length rest) ltac:(subst n; simpl; lia) rest eq_refl)
      as [out Hout].
    { intros t Ht. apply Hov. right. exact Ht. }
    rewrite Hout. simpl. eauto.
Qed.
End ExpanderClaims.

(** A word, a verse reference and a numeral. *)
Lemma expand_returns_witness :
  exists out, expand [(lit "See", 0%Q, 1%Q); (lit "99:7-8", 1%Q, 2%Q);
                      (lit "42", 2%Q, 3%Q)] = Returns out.
Proof.
  apply (expand_returns [(lit "See", 0%Q, 1%Q); (lit "99:7-8", 1%Q, 2%Q);
                         (lit "42", 2%Q, 3%Q)]).
  intros t [<-|[<-|[<-|[]]]]; discriminate.
Defined.

(** ** The rounds of the loop *)

Import Rounds.

Section RoundFacts.
Context {F : Type} `{Arith F}.
Implicit Types (rest body pending expanded : list (timing F)).
Implicit Types (t first closing : timing F).

Lemma fmap_app_nil (m : outcome (list (timing F))) : fmap (app []) m = m.
Proof. destruct m; reflexivity. Qed.

Lemma fmap_app_app expanded emitted (m : outcome (list (timing F))) :
  fmap (app expanded) (fmap (app emitted) m) = fmap (app (expanded ++ emitted)) m.
Proof. destruct m; simpl; [rewrite app_assoc|]; reflexivity. Qed.

(** A round of the loop and the rest of the run. *)
Lemma round_expand pending emitted pending' :
  pending <> [] ->
  round pending = Returns (emitted, pending') ->
  _expand_numeric_references pending =
  fmap (app emitted) (_expand_numeric_references pending').
Proof.
  intros Hne Hr. destruct pending as [|[[word st] en] rest]; [congruence|].
  rewrite expand_cons. unfold round in Hr.
  case_citation_at citation after Hc.
  - inversion Hr; subst emitted pending'. reflexivity.
  - destruct (expand_entry word st en) as [e|err]; [|discriminate].
    simpl in Hr. inversion Hr; subst emitted pending'. reflexivity.
Qed.

(** What the loop returns, seen from a round it reaches. *)
Lemma reaches_expand word_timings expanded pending :
  reaches word_timings expanded pending ->
  _expand_numeric_references word_timings =
  fmap (app expanded) (_expand_numeric_references pending).
Proof.
  induction 1 as [|expanded pending emitted pending' _ IH Hne Hr].
  - symmetry. apply fmap_app_nil.
  - rewrite IH, (round_expand _ _ _ Hne Hr). apply fmap_app_app.
Qed.

Lemma reaches_trans word_timings expanded pending expanded' pending' :
  reaches word_timings expanded pending ->
  reaches pending expanded' pending' ->
  reaches word_timings (expanded ++ expanded') pending'.
Proof.
  intros Hfirst Hthen.
  induction Hthen as [|expanded' pending' emitted pending'' _ IH Hne Hr].
  - rewrite app_nil_r. exact Hfirst.
  - rewrite app_assoc. exact (reaches_next IH Hne Hr).
Qed.

Lemma reaches_round word_timings expanded pending emitted pending' :
  reaches word_timings expanded pending ->
  pending <> [] ->
  round pending = Returns (emitted, pending') ->
  _expand_numeric_references word_timings =
  fmap (app (expanded ++ emitted)) (_expand_numeric_references pending').
Proof.
  intros Hreach Hne Hr.
  exact (reaches_expand _ _ _ (reaches_next Hreach Hne Hr)).
Qed.

(** The loop reaches whatever follows words without an opening
    parenthesis. *)
Lemma reaches_after_plain_words (before : list (timing F)) :
  forall expanded rest,
  (forall t, In t before -> contains "("%char (word_of t) = false) ->
  _expand_numeric_references before = Returns expanded ->
  reaches (before ++ rest) expanded rest.
Proof.
  induction before as [|[[word st] en] before IH]; intros expanded rest Hplain Hout.
  - rewrite expand_nil in Hout. inversion Hout. apply reaches_start.
  - rewrite expand_cons in Hout.
    assert (Hc : forall l, citation_at ((word, st, en) :: l) = None).
    { intros l. apply citation_at_no_paren.
      apply (Hplain (word, st, en)). left. reflexivity. }
    rewrite Hc in Hout.
    destruct (expand_entry word st en) as [emitted|err] eqn:He; [|discriminate].
    cbn [bind] in Hout.
    destruct (_expand_numeric_references before) as [out|err] eqn:Hb;
      [|discriminate].
    simpl in Hout. inversion Hout; subst expanded. clear Hout.
    cbn [app]. apply (reaches_trans _ emitted (before ++ rest)).
    + apply (reaches_next (expanded := []) (reaches_start _));
        [discriminate|].
      unfold round. rewrite Hc, He. reflexivity.
    + apply IH; [|reflexivity]. intros t Ht. apply Hplain. right. exact Ht.
Qed.

(** The round at a run of entries that spells a citation. *)
Lemma citation_run_round first body closing rest run :
  run = body ++ [closing] ->
  hd_error run = Some first ->
  contains "("%char (word_of first) = true ->
  (forall t, In t body -> contains ")"%char (word_of t) = false) ->
  contains ")"%char (word_of closing) = true ->
  search citation_pattern (join_space (map word_of run)) = true ->
  run ++ rest <> [] /\
  round (run ++ rest) =
  Returns ([(join_space (map word_of run), start_of first, end_of closing)],
           rest).
Proof.
  intros Hrun Hfirst Hopen Hbody Hclose Hshape.
  destruct first as [[word st] en].
  destruct run as [|t tail]; [discriminate|].
  simpl in Hfirst. inversion Hfirst; subst t. clear Hfirst.
  split; [discriminate|].
  change (contains "("%char word = true) in Hopen.
  cbn [app]. unfold round, citation_at. rewrite Hopen.
  rewrite app_comm_cons, Hrun, <- app_assoc. cbn [app].
  rewrite (collect_citation_run body closing rest Hbody Hclose).
  rewrite Hrun in Hshape. rewrite Hshape, last_end_snoc. reflexivity.
Qed.

(** A numeral gives an integer or is too large for a float. *)
Lemma int_float_cases word :
  matches numeric_pattern word = true ->
  (exists n, int_float word = Returns n) \/
  int_float word = Raises OverflowError.
Proof.
  intros Hm. destruct (decimal_value_numeric _ Hm) as (n & d & Hd & _ & _).
  unfold int_float. rewrite Hd. unfold int_of_binary64.
  destruct (2 * n <? d)%Z; [left; eauto|].
  match goal with
  | |- context [if ?c then Raises OverflowError else _] => destruct c
  end; [right; reflexivity|left; eauto].
Qed.

(** The entries a numeral of value [n] becomes. *)
Lemma numeral_round word start_time end_time rest n :
  matches numeric_pattern word = true ->
  int_float word = Returns n ->
  round ((word, start_time, end_time) :: rest) =
  Returns
    (if ((20 <? n) && (n <? 100))%Z
     then if (0 <? n mod 10)%Z
          then [(tens_text n, start_time, split_point start_time end_time);
                (str_of_Z (n mod 10), split_point start_time end_time, end_time)]
          else [(tens_text n, start_time, end_time)]
     else [(word, start_time, end_time)], rest).
Proof.
  intros Hm Hn. unfold round.
  rewrite (citation_at_no_paren _ _ _ _ (numeric_no_paren _ Hm)).
  unfold expand_entry.
  rewrite (numeric_not_verse _ Hm), Hm. cbn [andb].
  destruct (1 <? length word)%nat eqn:Hlen.
  - rewrite Hn. cbn [bind].
    destruct ((20 <? n) && (n <? 100))%Z; [|reflexivity].
    destruct (0 <? n mod 10)%Z; reflexivity.
  - apply Nat.ltb_ge in Hlen.
    pose proof (numeric_short _ _ Hm Hlen Hn) as Hle.
    replace ((20 <? n) && (n <? 100))%Z with false; [reflexivity|].
    symmetry. apply andb_false_iff. left. apply Z.ltb_ge. lia.
Qed.

(** A numeral too large for a float stops the loop. *)
Lemma numeral_overflow word start_time end_time rest :
  matches numeric_pattern word = true ->
  int_float word = Raises OverflowError ->
  _expand_numeric_references ((word, start_time, end_time) :: rest)
  = Raises OverflowError.
Proof.
  intros Hm Hn. rewrite expand_cons.
  rewrite (citation_at_no_paren _ _ _ _ (numeric_no_paren _ Hm)).
  unfold expand_entry.
  rewrite (numeric_not_verse _ Hm), Hm. cbn [andb].
  destruct (1 <? length word)%nat eqn:Hlen.
  - rewrite Hn. reflexivity.
  - exfalso. apply Nat.ltb_ge in Hlen. apply numeric_shape in Hm.
    destruct Hm as (ip & fp & nl & -> & Hne & Hip & Hfp & Hnl).
    unfold numeral in *. rewrite !length_app in Hlen.
    destruct ip as [|c ip]; [congruence|]. simpl in Hlen.
    destruct ip; [|simpl in Hlen; lia].
    destruct fp; [|simpl in Hlen; lia].
    destruct nl; [|simpl in Hlen; lia].
    simpl in Hip. rewrite andb_true_r in Hip.
    destruct (int_float_digit c Hip) as (m & Hm & _).
    simpl in Hn. rewrite Hm in Hn. discriminate.
Qed.

(** Without a numeral too large for a float the loop runs to the end of
    the list and returns what it has appended. *)
Lemma expand_runs_to_end word_timings :
  (forall t, In t word_timings ->
     int_float (word_of t) <> Raises OverflowError) ->
  exists expanded,
    _expand_numeric_references word_timings = Returns expanded /\
    reaches word_timings expanded [].
Proof.
  remember (length word_timings) as n eqn:Hn. revert word_timings Hn.
  induction n as [n IH] using lt_wf_ind. intros ws Hn Hov.
  destruct ws as [|[[word st] en] rest].
  - exists []. split; [reflexivity|apply reaches_start].
  - assert (Hround : exists emitted pending',
              round ((word, st, en) :: rest) = Returns (emitted, pending') /\
              (length pending' < n)%nat /\
              forall t, In t pending' ->
                int_float (word_of t) <> Raises OverflowError).
    { unfold round. case_citation_at citation after Hc.
      - exists [citation], after. split; [reflexivity|].
        split; [subst n; exact (citation_at_shorter _ _ _ Hc)|].
        apply citation_at_found in Hc.
        destruct Hc as (first & body & closing & Hws & _ & _).
        intros t Ht. apply Hov. rewrite Hws, in_app_iff. right. exact Ht.
      - destruct (expand_entry_returns word st en) as [emitted ->].
        { apply (Hov (word, st, en)). left. reflexivity. }
        exists emitted, rest. split; [reflexivity|].
        split; [subst n; simpl; lia|].
        intros t Ht. apply Hov. right. exact Ht. }
    destruct Hround as (emitted & pending' & Hr & Hlt & Hov').
    destruct (IH (length pending') Hlt pending' eq_refl Hov')
      as (out & Hout & Hreach).
    assert (Hstep : reaches ((word, st, en) :: rest) emitted pending').
    { apply (reaches_next (expanded := []) (reaches_start _));
        [discriminate|exact Hr]. }
    exists (emitted ++ out). split.
    + rewrite (reaches_expand _ _ _ Hstep), Hout. reflexivity.
    + exact (reaches_trans _ _ _ _ _ Hstep Hreach).
Qed.

(** From a round the loop reaches it returns, unless a numeral still to
    read is too large for a float. *)
Lemma reaches_returns word_timings expanded pending :
  reaches word_timings expanded pending ->
  (forall t, In t pending -> int_float (word_of t) <> Raises OverflowError) ->
  exists expanded_rest,
    _expand_numeric_references pending = Returns expanded_rest /\
    _expand_numeric_references word_timings
    = Returns (expanded ++ expanded_rest).
Proof.
  intros Hreach Hov.
  destruct (expand_runs_to_end pending Hov) as (out & Hout & _).
  exists out. split; [exact Hout|].
  rewrite (reaches_expand _ _ _ Hreach), Hout. reflexivity.
Qed.

End RoundFacts.

(** Claim C6.  Whenever the loop comes to a run of entries that starts at
    a word with an opening parenthesis, has its first closing parenthesis
    in its last word and spells a citation, it appends exactly one entry,
    from the start of the first entry of the run to the end of the last,
    and goes on with the entries after the run; the expander returns the
    entries appended so far, this one and those of the rest, and it does
    return unless a numeral of the rest is too large for a float. *)
Theorem expand_merges_citation {F : Type} {A : Arith F}
    (word_timings expanded : list (timing F)) (first : timing F)
    (body : list (timing F)) (closing : timing F)
    (rest run : list (timing F)) :
  reaches word_timings expanded (run ++ rest) ->
  run = body ++ [closing] ->
  hd_error run = Some first ->
  contains "("%char (word_of first) = true ->
  (forall t, In t body -> contains ")"%char (word_of t) = false) ->
  contains ")"%char (word_of closing) = true ->
  search citation_pattern (join_space (map word_of run)) = true ->
  reaches word_timings
    (expanded ++ [(join_space (map word_of run), start_of first, end_of closing)])
    rest /\
  expand word_timings =
  fmap (app (expanded ++
             [(join_space (map word_of run), start_of first, end_of closing)]))
    (expand rest) /\
  ((forall t, In t rest -> int_float (word_of t) <> Raises OverflowError) ->
   exists expanded_rest,
     expand rest = Returns expanded_rest /\
     expand word_timings =
     Returns (expanded ++
              (join_space (map word_of run), start_of first, end_of closing)
              :: expanded_rest)).
Proof.
  intros Hreach Hrun Hfirst Hopen Hbody Hclose Hshape.
  destruct (citation_run_round first body closing rest run
              Hrun Hfirst Hopen Hbody Hclose Hshape) as [Hne Hround].
  pose proof (reaches_next Hreach Hne Hround) as Hnext.
  split; [exact Hnext|]. split.
  - exact (reaches_expand _ _ _ Hnext).
  - intros Hov. destruct (reaches_returns _ _ _ Hnext Hov) as (out & Hout & Hall).
    exists out. split; [exact Hout|].
    unfold expand. rewrite Hall, <- app_assoc. reflexivity.
Qed.

(** The example of the specification: "See (Al-A'raf 7:28) for details",
    the [i]-th token from [i] to [i + 1]. *)
Lemma expand_merges_citation_witness :
  expand (entries ["See"; "(Al-A'raf"; "7:28)"; "for"; "details"]%string) =
  Returns [(lit "See", 0, 1); (lit "(Al-A'raf 7:28)", 1, 3);
           (lit "for", 3, 4); (lit "details", 4, 5)].
Proof.
  destruct (expand_merges_citation
              (entries ["See"; "(Al-A'raf"; "7:28)"; "for"; "details"]%string)
              [(lit "See", 0, 1)]
              (lit "(Al-A'raf", 1, 2)
              [(lit "(Al-A'raf", 1, 2)]
              (lit "7:28)", 2, 3)
              [(lit "for", 3, 4); (lit "details", 4, 5)]
              [(lit "(Al-A'raf", 1, 2); (lit "7:28)", 2, 3)])
    as (_ & _ & Hreturns).
  - apply (reaches_next (expanded := []) (reaches_start _));
      [discriminate|reflexivity].
  - reflexivity.
  - reflexivity.
  - reflexivity.
  - intros t [<-|[]]. reflexivity.
  - reflexivity.
  - reflexivity.
  - destruct Hreturns as (expanded_rest & Hrest & Hall).
    + intros t [<-|[<-|[]]]; discriminate.
    + vm_compute in Hrest. inversion Hrest; subst expanded_rest. exact Hall.
Defined.

Lemma digit_cases d :
  (0 <= d <= 9)%Z ->
  d = 0%Z \/ d = 1%Z \/ d = 2%Z \/ d = 3%Z \/ d = 4%Z \/ d = 5%Z \/
  d = 6%Z \/ d = 7%Z \/ d = 8%Z \/ d = 9%Z.
Proof. lia. Qed.

(** [str(d)] of a decimal digit holds no point. *)
Lemma str_of_digit_no_point d :
  (0 <= d <= 9)%Z -> ~ In "."%char (str_of_Z d).
Proof.
  intros Hd Hin. apply digit_cases in Hd.
  repeat (destruct Hd as [->|Hd]; [simpl in Hin; intuition discriminate|]).
  subst d. simpl in Hin. intuition discriminate.
Qed.

(** In exact arithmetic the split point lies 60% into the entry. *)
Lemma split_point_60_40 (start_time end_time : Q) :
  split_point start_time end_time - start_time == 0.6 * (end_time - start_time) /\
  end_time - split_point start_time end_time == 0.4 * (end_time - start_time).
Proof. unfold split_point. simpl. split; field. Qed.

(** Claim C4, as amended.  Whenever the loop comes to a numeral entry, the
    value [int(float(word))] is an integer [n] or the numeral is too large
    for a float.  With [20 < n < 100] (so 99 included) the entry becomes a
    tens entry up to the split point and a ones entry after it when the
    ones digit is not zero, and one tens entry over the whole interval
    when it is zero; with another [n] the entry is appended as it is; the
    loop goes on with the next entry.  A numeral too large for a float
    makes the expander raise [OverflowError].  In exact arithmetic the
    split point lies 60% into the interval. *)
Theorem expand_splits_numerals {F : Type} {A : Arith F}
    (word_timings expanded : list (timing F))
    (word : str) (start_time end_time : F) (rest : list (timing F)) :
  reaches word_timings expanded ((word, start_time, end_time) :: rest) ->
  matches numeric_pattern word = true ->
  ((exists n emitted,
      int_float word = Returns n /\
      ((20 < n < 100)%Z -> (n mod 10 <> 0)%Z ->
       emitted =
       [(tens_text n, start_time, split_point start_time end_time);
        (str_of_Z (n mod 10), split_point start_time end_time, end_time)]) /\
      ((20 < n < 100)%Z -> (n mod 10 = 0)%Z ->
       emitted = [(tens_text n, start_time, end_time)]) /\
      ((n <= 20 \/ 100 <= n)%Z ->
       emitted = [(word, start_time, end_time)]) /\
      reaches word_timings (expanded ++ emitted) rest /\
      expand word_timings = fmap (app (expanded ++ emitted)) (expand rest) /\
      ((forall t, In t rest -> int_float (word_of t) <> Raises OverflowError) ->
       exists expanded_rest,
         expand rest = Returns expanded_rest /\
         expand word_timings = Returns (expanded ++ emitted ++ expanded_rest)))
   \/ (int_float word = Raises OverflowError /\
       expand word_timings = Raises OverflowError))
  /\ (forall s e : Q,
     split_point s e - s == 0.6 * (e - s) /\
     e - split_point s e == 0.4 * (e - s)).
Proof.
  intros Hreach Hm. split; [|intros s e; apply split_point_60_40].
  destruct (int_float_cases word Hm) as [[n Hn]|Hover].
  - left. exists n. eexists. split; [exact Hn|].
    pose proof (numeral_round word start_time end_time rest n Hm Hn) as Hround.
    assert (Hne : (word, start_time, end_time) :: rest <> []) by discriminate.
    pose proof (reaches_next Hreach Hne Hround) as Hnext.
    split; [|split; [|split; [|split; [exact Hnext|split]]]].
    + intros Hr Hones.
      replace ((20 <? n) && (n <? 100))%Z with true
        by (symmetry; apply andb_true_iff; split; apply Z.ltb_lt; lia).
      replace (0 <? n mod 10)%Z with true; [reflexivity|].
      symmetry. apply Z.ltb_lt. pose proof (Z.mod_pos_bound n 10). lia.
    + intros Hr Hones.
      replace ((20 <? n) && (n <? 100))%Z with true
        by (symmetry; apply andb_true_iff; split; apply Z.ltb_lt; lia).
      rewrite Hones. reflexivity.
    + intros Hr.
      replace ((20 <? n) && (n <? 100))%Z with false; [reflexivity|].
      symmetry. apply andb_false_iff.
      destruct Hr; [left|right]; apply Z.ltb_ge; lia.
    + exact (reaches_expand _ _ _ Hnext).
    + intros Hov.
      destruct (reaches_returns _ _ _ Hnext Hov) as (out & Hout & Hall).
      exists out. split; [exact Hout|].
      unfold expand. rewrite Hall, <- app_assoc. reflexivity.
  - right. split; [exact Hover|].
    unfold expand. rewrite (reaches_expand _ _ _ Hreach).
    rewrite (numeral_overflow word start_time end_time rest Hm Hover).
    reflexivity.
Qed.

(** The round numeral of the specification: "80" over [0, 1] stays one
    entry "80" over [0, 1]. *)
Lemma expand_splits_numerals_witness :
  expand [(lit "80", 0%Q, 1%Q)] = Returns [(lit "80", 0%Q, 1%Q)].
Proof.
  destruct (expand_splits_numerals [(lit "80", 0%Q, 1%Q)] [] (lit "80") 0%Q 1%Q [])
    as [[(n & emitted & Hn & _ & Hround & _ & _ & Hall & _)|[Hover _]] _].
  - apply reaches_start.
  - reflexivity.
  - vm_compute in Hn. inversion Hn; subst n.
    rewrite Hall, (Hround ltac:(lia) eq_refl). reflexivity.
  - vm_compute in Hover. discriminate.
Defined.

(** The claim as written stops the split below 99; the source splits 99. *)
Lemma numeral_99_is_split :
  int_float (lit "99") = Returns 99%Z /\
  ~ (20 < 99 < 99)%Z /\
  expand [(lit "99", 0%Q, 1%Q)] =
  Returns [(lit "90", 0%Q, split_point 0%Q 1%Q);
           (lit "9", split_point 0%Q 1%Q, 1%Q)].
Proof.
  split; [reflexivity|]. split; [lia|]. vm_compute. reflexivity.
Qed.

(** Claim C10, as amended.  The expander does not keep the text of every
    entry: whenever the loop comes to a numeral with a fractional part
    whose value [n = int(float(word))] satisfies [20 < n < 100], it
    appends the tens and the ones of [n] in its place and the fractional
    text is gone; "99.7" becomes "90" and "9".  The value [n] is the
    numeral rounded to a float and then cut to an integer: the integer
    part of the numeral, or the integer after it. *)
Theorem expand_drops_fraction {F : Type} {A : Arith F}
    (word_timings expanded : list (timing F))
    (word : str) (start_time end_time : F) (rest : list (timing F)) (n : Z) :
  reaches word_timings expanded ((word, start_time, end_time) :: rest) ->
  matches numeric_pattern word = true ->
  In "."%char word ->
  int_float word = Returns n ->
  (20 < n < 100)%Z ->
  (exists emitted,
     map word_of emitted =
       tens_text n :: (if (0 <? n mod 10)%Z then [str_of_Z (n mod 10)] else []) /\
     (forall t, In t emitted -> ~ In "."%char (word_of t) /\ word_of t <> word) /\
     reaches word_timings (expanded ++ emitted) rest /\
     expand word_timings = fmap (app (expanded ++ emitted)) (expand rest) /\
     ((forall t, In t rest -> int_float (word_of t) <> Raises OverflowError) ->
      exists expanded_rest,
        expand rest = Returns expanded_rest /\
        expand word_timings = Returns (expanded ++ emitted ++ expanded_rest)))
  /\ (exists numerator denominator,
        decimal_value word = Some (numerator, denominator) /\
        (0 < denominator)%Z /\
        (numerator < denominator * 2 ^ 53 ->
         numerator / denominator <= n <= numerator / denominator + 1)%Z)
  /\ int_float (lit "99.7") = Returns 99%Z
  /\ expand [(lit "99.7", start_time, end_time)] =
     Returns [(lit "90", start_time, split_point start_time end_time);
              (lit "9", split_point start_time end_time, end_time)].
Proof.
  intros Hreach Hm Hpoint Hn Hr.
  split; [|split; [|split; [reflexivity|vm_compute; reflexivity]]].
  - assert (Htens : ~ In "."%char (tens_text n)).
    { unfold tens_text. rewrite in_app_iff. intros [Hin|Hin].
      - revert Hin. apply str_of_digit_no_point.
        split; [apply Z.div_pos; lia|].
        apply Z.lt_succ_r. apply Z.div_lt_upper_bound; lia.
      - simpl in Hin. intuition discriminate. }
    assert (Hones : ~ In "."%char (str_of_Z (n mod 10))).
    { apply str_of_digit_no_point. pose proof (Z.mod_pos_bound n 10). lia. }
    pose proof (numeral_round word start_time end_time rest n Hm Hn) as Hround.
    replace ((20 <? n) && (n <? 100))%Z with true in Hround
      by (symmetry; apply andb_true_iff; split; apply Z.ltb_lt; lia).
    assert (Hne : (word, start_time, end_time) :: rest <> []) by discriminate.
    pose proof (reaches_next Hreach Hne Hround) as Hnext.
    eexists. split; [|split; [|split; [exact Hnext|split]]].
    + destruct (0 <? n mod 10)%Z; reflexivity.
    + intros t Ht. destruct (0 <? n mod 10)%Z; simpl in Ht.
      * destruct Ht as [<-|[<-|[]]]; unfold word_of; simpl;
          (split; [assumption|congruence]).
      * destruct Ht as [<-|[]]; unfold word_of; simpl;
          (split; [assumption|congruence]).
    + exact (reaches_expand _ _ _ Hnext).
    + intros Hov.
      destruct (reaches_returns _ _ _ Hnext Hov) as (out & Hout & Hall).
      exists out. split; [exact Hout|].
      unfold expand. rewrite Hall, <- app_assoc. reflexivity.
  - destruct (int_float_integer_part word Hm) as (num & den & Hv & Hden & Hk).
    exists num, den. split; [exact Hv|]. split; [exact Hden|].
    intros Hlt. destruct (Hk Hlt) as (k & Hk1 & Hk2).
    rewrite Hn in Hk1. inversion Hk1; subst k. exact Hk2.
Qed.

Lemma expand_drops_fraction_witness :
  exists emitted,
    expand [(lit "See", 0%Q, 1%Q); (lit "99.7", 1%Q, 2%Q)]
    = Returns ((lit "See", 0%Q, 1%Q) :: emitted) /\
    map word_of emitted = [lit "90"; lit "9"].
Proof.
  destruct (expand_drops_fraction
              [(lit "See", 0%Q, 1%Q); (lit "99.7", 1%Q, 2%Q)]
              [(lit "See", 0%Q, 1%Q)] (lit "99.7") 1%Q 2%Q [] 99)
    as [(emitted & Hwords & _ & _ & Hall & _) _].
  - apply (reaches_next (expanded := []) (reaches_start _));
      [discriminate|reflexivity].
  - reflexivity.
  - simpl. tauto.
  - reflexivity.
  - lia.
  - exists emitted. split; [|exact Hwords].
    rewrite Hall. simpl. rewrite app_nil_r. reflexivity.
Defined.

(** The claim as written cuts the numeral to its integer part; the source
    rounds it to a float first.  The numeral 99.99999999999999999 has the
    integer part 99, but [float] gives 100.0: the entry is not split and
    keeps its fraction. *)
Lemma fraction_rounds_up :
  matches numeric_pattern (lit "99.99999999999999999") = true /\
  decimal_value (lit "99.99999999999999999")
  = Some (9999999999999999999, 100000000000000000)%Z /\
  (9999999999999999999 / 100000000000000000 = 99)%Z /\
  (20 < 99 < 100)%Z /\
  int_float (lit "99.99999999999999999") = Returns 100%Z /\
  expand [(lit "99.99999999999999999", 0%Q, 1%Q)]
  = Returns [(lit "99.99999999999999999", 0%Q, 1%Q)].
Proof.
  split; [reflexivity|]. split; [reflexivity|]. split; [reflexivity|].
  split; [lia|]. split; vm_compute; reflexivity.
Qed.

(** Claim C7 at a numeral too large for a float: [float] gives [inf] for
    the numeral of 400 nines and [int] raises [OverflowError], so the
    expander has no output there. *)
Theorem expand_overflows :
  matches numeric_pattern (repeat "9"%char 400) = true /\
  expand [(repeat "9"%char 400, 0%Q, 1%Q)] = Raises OverflowError.
Proof. split; vm_compute; reflexivity. Qed.

(** ** The estimator *)


Section EstimatorFacts.
Context {F : Type} `{Arith F}.
Implicit Types (l : list (timing F)) (a b t : timing F).

Lemma accumulate_start current_time words durations t rest :
  accumulate current_time words durations = t :: rest ->
  start_of t = current_time.
Proof.
  destruct words as [|w words], durations as [|d durations]; simpl;
    intros Heq; inversion Heq; reflexivity.
Qed.

Lemma accumulate_length words : forall current_time durations,
  length durations = length words ->
  length (accumulate current_time words durations) = length words.
Proof.
  induction words as [|w words IH]; intros c [|d durations] Hlen;
    simpl in *; try reflexivity; try discriminate.
  rewrite IH; [reflexivity|lia].
Qed.






End EstimatorFacts.

(** *** The estimator in exact arithmetic *)

Lemma Qltb_lt (a b : Q) : Qltb a b = true <-> a < b.
Proof. unfold Qltb, Qlt. apply Z.ltb_lt. Qed.

Lemma Qltb_ge (a b : Q) : Qltb a b = false <-> b <= a.
Proof. unfold Qltb, Qle. apply Z.ltb_ge. Qed.

Lemma pymax_Qmax (a b : Q) : pymax a b == Qmax a b.
Proof.
  unfold pymax. simpl. destruct (Qltb a b) eqn:Hab.
  - apply Qltb_lt in Hab. symmetry. apply Q.max_r. apply Qlt_le_weak. exact Hab.
  - apply Qltb_ge in Hab. symmetry. apply Q.max_l. exact Hab.
Qed.

Lemma pymin_Qmin (a b : Q) : pymin a b == Qmin a b.
Proof.
  unfold pymin. simpl. destruct (Qltb b a) eqn:Hab.
  - apply Qltb_lt in Hab. symmetry. apply Q.min_r. apply Qlt_le_weak. exact Hab.
  - apply Qltb_ge in Hab. symmetry. apply Q.min_l. exact Hab.
Qed.

Lemma pymax_lower (a b : Q) : a <= pymax a b.
Proof. rewrite pymax_Qmax. apply Q.le_max_l. Qed.

(** The weight of the source is the weight of the specification. *)
Lemma word_length_factor_weight (word : str) :
  word_length_factor word == weight word.
Proof.
  unfold word_length_factor, weight, classify, clamp.
  unfold verse_factor, numeric_factor, regular_factor, len_f.
  destruct (matches verse_reference_pattern word);
    [|destruct (matches numeric_pattern word)];
    rewrite pymax_Qmax, pymin_Qmin; reflexivity.
Qed.

Lemma word_length_factor_pos (word : str) : 0 < word_length_factor word.
Proof.
  assert (Hhalf : 0.5 <= word_length_factor word).
  { unfold word_length_factor, verse_factor, numeric_factor, regular_factor.
    destruct (matches verse_reference_pattern word);
      [|destruct (matches numeric_pattern word)]; apply pymax_lower. }
  eapply Qlt_le_trans; [|exact Hhalf]. reflexivity.
Qed.

Lemma len_f_pos {X : Type} (xs : list X) : xs <> [] -> 0 < len_f xs.
Proof.
  intros Hne. unfold len_f. simpl. unfold Qlt. simpl.
  destruct xs; [congruence|]. simpl length. lia.
Qed.

Lemma Qdiv_pos (a b : Q) : 0 < a -> 0 < b -> 0 < a / b.
Proof.
  intros Ha Hb. unfold Qdiv. apply Qmult_lt_0_compat; [exact Ha|].
  apply Qinv_lt_0_compat. exact Hb.
Qed.

Lemma initial_durations_pos (words : list str) (duration : Q) :
  words <> [] -> 0 < duration ->
  Forall above_zero (initial_durations words duration).
Proof.
  intros Hne Hd. unfold initial_durations. apply Forall_map.
  apply Forall_forall. intros w _. unfold above_zero. simpl.
  apply Qmult_lt_0_compat; [apply word_length_factor_pos|].
  apply Qdiv_pos; [exact Hd|apply len_f_pos; exact Hne].
Qed.

Lemma adjusted_durations_length (words : list str) (duration : Q) :
  length (adjusted_durations words duration) = length words.
Proof.
  unfold adjusted_durations.
  assert (Hi : length (initial_durations words duration) = length words)
    by (unfold initial_durations; apply length_map).
  destruct (special_case_indices words); [exact Hi|].
  destruct (_ <? _)%nat; [|exact Hi].
  destruct (ltb _ _); [|exact Hi].
  rewrite length_map. exact Hi.
Qed.

Lemma adjusted_durations_pos (words : list str) (duration : Q) :
  words <> [] -> 0 < duration ->
  Forall above_zero (adjusted_durations words duration).
Proof.
  intros Hne Hd. pose proof (initial_durations_pos words duration Hne Hd) as Hi.
  unfold adjusted_durations.
  destruct (special_case_indices words); [exact Hi|].
  destruct (_ <? _)%nat; [|exact Hi].
  destruct (ltb duration _) eqn:Hlt; [|exact Hi].
  simpl in Hlt. apply Qltb_lt in Hlt.
  apply Forall_map. revert Hi. apply Forall_impl. intros x Hx.
  unfold above_zero in *. simpl.
  apply Qmult_lt_0_compat; [exact Hx|].
  apply Qdiv_pos; [exact Hd|]. eapply Qlt_trans; [exact Hd|exact Hlt].
Qed.

(** Entries of the cumulative pass, for durations above zero. *)
Lemma accumulate_pos words : forall (current_time : Q) durations t,
  Forall above_zero durations ->
  In t (accumulate current_time words durations) ->
  current_time <= start_of t /\ start_of t < end_of t.
Proof.
  induction words as [|w words IH]; intros c [|d durations] t Hpos Hin;
    simpl in Hin; try contradiction.
  inversion Hpos as [|? ? Hd Hrest]; subst. unfold above_zero in Hd.
  destruct Hin as [<-|Hin].
  - unfold start_of, end_of. simpl. split; [apply Qle_refl|].
    rewrite <- (Qplus_0_r c) at 1. apply Qplus_lt_r. exact Hd.
  - destruct (IH (c + d) durations t Hrest Hin) as [Hle Hlt].
    split; [|exact Hlt].
    eapply Qle_trans; [|exact Hle].
    rewrite <- (Qplus_0_r c) at 1. apply Qplus_le_r. apply Qlt_le_weak. exact Hd.
Qed.

Lemma last_end_In (l : list (timing Q)) (t : timing Q) (d : Q) :
  exists u, In u (t :: l) /\ last_end (t :: l) d = end_of u.
Proof.
  revert t d. induction l as [|v l IH]; intros t d.
  - exists t. simpl. auto.
  - destruct (IH v (end_of t)) as (u & Hu & Heq).
    exists u. split; [right; exact Hu|exact Heq].
Qed.

(** The shape of an estimate: the cumulative entries, rescaled or not. *)
Lemma estimate_shape (text : str) (duration : Q) :
  split text <> [] -> 0 < duration ->
  exists first rest,
    accumulate 0 (split text) (adjusted_durations (split text) duration)
      = first :: rest /\
    start_of first = 0 /\
    (forall t, In t (first :: rest) -> 0 <= start_of t /\ start_of t < end_of t) /\
    0 < last_end (first :: rest) duration.
Proof.
  intros Hne Hd.
  pose proof (adjusted_durations_pos (split text) duration Hne Hd) as Hpos.
  pose proof (adjusted_durations_length (split text) duration) as Hlen.
  pose proof (accumulate_length (split text) 0 _ Hlen) as Hacc.
  destruct (accumulate 0 (split text) (adjusted_durations (split text) duration))
    as [|first rest] eqn:Heq.
  - destruct (split text); [congruence|discriminate].
  - exists first, rest. split; [reflexivity|].
    split; [exact (accumulate_start _ _ _ _ _ Heq)|].
    assert (Hall : forall t, In t (first :: rest) ->
                     0 <= start_of t /\ start_of t < end_of t).
    { intros t Ht. rewrite <- Heq in Ht. exact (accumulate_pos _ _ _ _ Hpos Ht). }
    split; [exact Hall|].
    destruct (last_end_In rest first duration) as (u & Hu & ->).
    destruct (Hall u Hu) as [H0 Hlt].
    eapply Qle_lt_trans; [exact H0|exact Hlt].
Qed.

(** In exact arithmetic the divisions of the estimator are by values
    above zero: none raises [ZeroDivisionError]. *)
Lemma estimate_divisions_defined (text : str) (duration : Q) :
  split text <> [] -> 0 < duration ->
  0 < len_f (split text) /\
  (duration < pysum (initial_durations (split text) duration) ->
   0 < pysum (initial_durations (split text) duration)) /\
  0 < last_end
        (accumulate 0 (split text) (adjusted_durations (split text) duration))
        duration.
Proof.
  intros Hne Hd. split; [apply len_f_pos; exact Hne|]. split.
  - intros Hlt. eapply Qlt_trans; [exact Hd|exact Hlt].
  - destruct (estimate_shape text duration Hne Hd)
      as (first & rest & -> & _ & _ & Hlast).
    exact Hlast.
Qed.



(** Claim C8.  Every token is classified verse reference first, numeral
    second, ordinary word otherwise, and its raw duration is its weight
    times [totalDuration / tokenCount]. *)
Theorem estimate_raw_duration (text : str) (totalDuration : Q)
    (i : nat) (token : str) :
  nth_error (split text) i = Some token ->
  (exists raw,
     nth_error (initial_durations (split text) totalDuration) i = Some raw /\
     raw == weight token
            * (totalDuration / inject_Z (Z.of_nat (length (split text)))))
  /\ (matches verse_reference_pattern token = true ->
      word_length_factor token
      == clamp 0.5 4 (inject_Z (Z.of_nat (length token)) / 5 * 3))
  /\ (matches verse_reference_pattern token = false ->
      matches numeric_pattern token = true ->
      word_length_factor token
      == clamp 0.5 3 (inject_Z (Z.of_nat (length token)) / 5 * 2))
  /\ (matches verse_reference_pattern token = false ->
      matches numeric_pattern token = false ->
      word_length_factor token
      == clamp 0.5 2 (inject_Z (Z.of_nat (length token)) / 5)).
Proof.
  intros Hi. split.
  - unfold initial_durations. rewrite nth_error_map, Hi. simpl.
    eexists. split; [reflexivity|].
    rewrite word_length_factor_weight. reflexivity.
  - repeat split; intros; rewrite word_length_factor_weight;
      unfold weight, classify;
      repeat match goal with Hm : matches _ _ = _ |- _ => rewrite Hm; clear Hm end;
      reflexivity.
Qed.

Lemma estimate_raw_duration_witness :
  exists raw,
    nth_error (initial_durations (split (lit "verse 99:7-8 of 114")) 8) 1
      = Some raw /\
    raw == clamp 0.5 4 (6 / 5 * 3) * (8 / 4).
Proof.
  destruct (estimate_raw_duration (lit "verse 99:7-8 of 114") 8 1 (lit "99:7-8")
              eq_refl) as [(raw & Hraw & Heq) _].
  exists raw. split; [exact Hraw|]. rewrite Heq. reflexivity.
Defined.

(** *** The adjustment of lines 625-635 *)

Lemma is_special_classify (word : str) :
  is_special word = true <-> classify word <> OrdinaryWord.
Proof.
  unfold is_special, classify.
  destruct (matches verse_reference_pattern word);
    [|destruct (matches numeric_pattern word)];
    split; congruence.
Qed.

Lemma special_case_indices_nonempty (words : list str) : forall i,
  special_case_indices_from i words <> [] <->
  exists word, In word words /\ is_special word = true.
Proof.
  induction words as [|w words IH]; intros i; simpl.
  - split; [congruence|intros (? & [] & _)].
  - destruct (is_special w) eqn:Hw.
    + split; [eauto|discriminate].
    + rewrite IH. split.
      * intros (u & Hu & Hs). eauto.
      * intros (u & [<-|Hu] & Hs); [congruence|eauto].
Qed.

Lemma special_case_indices_length (words : list str) : forall i,
  (length (special_case_indices_from i words) <= length words)%nat.
Proof.
  induction words as [|w words IH]; intros i; simpl; [lia|].
  destruct (is_special w); simpl; [|specialize (IH (S i)); lia].
  specialize (IH (S i)). lia.
Qed.

Lemma special_case_indices_fewer (words : list str) : forall i,
  (length (special_case_indices_from i words) < length words)%nat <->
  exists word, In word words /\ is_special word = false.
Proof.
  induction words as [|w words IH]; intros i; simpl.
  - split; [lia|intros (? & [] & _)].
  - pose proof (special_case_indices_length words (S i)) as Hle.
    destruct (is_special w) eqn:Hw; simpl.
    + rewrite <- Nat.succ_lt_mono, IH. split.
      * intros (u & Hu & Hs). eauto.
      * intros (u & [<-|Hu] & Hs); [congruence|eauto].
    + split; [eauto|lia].
Qed.

(** Claim C5, as amended.  The raw durations are scaled by
    [totalDuration / sum] before the cumulative pass when their sum exceeds
    [totalDuration] and the text holds both a special-cased token and an
    ordinary one; a text of special-cased tokens only, or of ordinary ones
    only, keeps its raw durations. *)
Theorem scaling_needs_both_classes (text : str) (totalDuration : Q) :
  ((exists token, In token (split text) /\ classify token <> OrdinaryWord) ->
   (exists token, In token (split text) /\ classify token = OrdinaryWord) ->
   totalDuration < pysum (initial_durations (split text) totalDuration) ->
   adjusted_durations (split text) totalDuration =
   map (fun d => d * (totalDuration
                      / pysum (initial_durations (split text) totalDuration)))
     (initial_durations (split text) totalDuration))
  /\ ((forall token, In token (split text) -> classify token <> OrdinaryWord) \/
      (forall token, In token (split text) -> classify token = OrdinaryWord) ->
      adjusted_durations (split text) totalDuration =
      initial_durations (split text) totalDuration).
Proof.
  unfold adjusted_durations, special_case_indices. split.
  - intros (s & Hs & Hspecial) (o & Ho & Hordinary) Hsum.
    assert (Hne : special_case_indices_from 0 (split text) <> []).
    { apply special_case_indices_nonempty. exists s. split; [exact Hs|].
      apply is_special_classify. exact Hspecial. }
    assert (Hlt : (length (special_case_indices_from 0 (split text))
                   < length (split text))%nat).
    { apply special_case_indices_fewer. exists o. split; [exact Ho|].
      destruct (is_special o) eqn:Hso; [|reflexivity].
      apply is_special_classify in Hso. congruence. }
    destruct (special_case_indices_from 0 (split text)); [congruence|].
    apply Nat.ltb_lt in Hlt. rewrite Hlt.
    apply Qltb_lt in Hsum. simpl ltb. rewrite Hsum. reflexivity.
  - intros [Hall|Hnone].
    + destruct (special_case_indices_from 0 (split text)) eqn:Hidx; [reflexivity|].
      replace (_ <? _)%nat with false; [reflexivity|].
      symmetry. apply Nat.ltb_ge. rewrite <- Hidx.
      destruct (le_lt_dec (length (split text))
                  (length (special_case_indices_from 0 (split text))))
        as [Hle|Hlt]; [exact Hle|].
      apply special_case_indices_fewer in Hlt. destruct Hlt as (o & Ho & Hso).
      exfalso. apply (Hall o Ho).
      destruct (classify o) eqn:Hc; try reflexivity;
        assert (Hs : is_special o = true)
          by (apply is_special_classify; congruence); congruence.
    + destruct (special_case_indices_from 0 (split text)) eqn:Hidx; [reflexivity|].
      exfalso.
      assert (Hne : special_case_indices_from 0 (split text) <> [])
        by (rewrite Hidx; discriminate).
      apply special_case_indices_nonempty in Hne. destruct Hne as (s & Hs & Hss).
      apply is_special_classify in Hss. exact (Hss (Hnone s Hs)).
Qed.

(** A text with a verse reference and ordinary words whose raw durations
    add up to more than the duration. *)
Lemma scaling_needs_both_classes_witness :
  adjusted_durations (split (lit "99:7-8 blessings")) 2%Q =
  map (fun d => d * (2 / pysum (initial_durations (split (lit "99:7-8 blessings")) 2)))
    (initial_durations (split (lit "99:7-8 blessings")) 2).
Proof.
  apply (scaling_needs_both_classes (lit "99:7-8 blessings") 2).
  - exists (lit "99:7-8"). split; [simpl; tauto|vm_compute; discriminate].
  - exists (lit "blessings"). split; [simpl; tauto|reflexivity].
  - reflexivity.
Defined.

(** The claim as written scales whatever the token classes; one ordinary
    word of ten letters has raw duration twice the total and is not scaled. *)
Lemma ordinary_words_are_not_scaled :
  classify (lit "abcdefghij") = OrdinaryWord /\
  1 < pysum (initial_durations (split (lit "abcdefghij")) 1%Q) /\
  Forall2 Qeq (adjusted_durations (split (lit "abcdefghij")) 1%Q) [2] /\
  Forall2 Qeq
    (map (fun d => d * (1 / pysum (initial_durations (split (lit "abcdefghij")) 1%Q)))
       (initial_durations (split (lit "abcdefghij")) 1%Q))
    [1].
Proof.
  split; [reflexivity|]. split; [reflexivity|].
  split; vm_compute; (constructor; [reflexivity|constructor]).
Qed.

(** *** The empty text *)

(** Claim C3, as amended.  For a text without a token the estimator
    returns the empty timing list; it raises nothing. *)
Theorem estimate_empty_text {F : Type} {A : Arith F} (text : str)
    (totalDuration : F) :
  split text = [] -> estimate text totalDuration = Returns [].
Proof.
  intros Hs. unfold estimate, _generate_approximate_word_timings.
  rewrite Hs. reflexivity.
Qed.

Lemma estimate_empty_text_witness :
  estimate (lit "   ") 3%Q = Returns [].
Proof. apply (estimate_empty_text (lit "   ") 3%Q). reflexivity. Defined.

Lemma empty_text_is_not_an_error :
  split (lit "") = [] /\
  estimate (lit "") 1%Q = Returns [] /\
  estimate (lit "") 1%Q <> Raises EmptyInputError.
Proof. split; [reflexivity|]. split; [reflexivity|discriminate]. Qed.

(** ** The corrector *)


Section CorrectorFacts.
Context {F : Type}.
Implicit Types (ws : list (timing F)) (words : list str).

(** The scan never lets a run start at index 0. *)
Lemma scan_reference_bounds key words : forall i ref_start a b,
  (0 <= i)%Z ->
  (ref_start = -1 \/ 1 <= ref_start < i)%Z ->
  scan_reference key i ref_start words = (a, b) ->
  (b <> -1)%Z ->
  (1 <= a <= b)%Z /\ (b < i + Z.of_nat (length words))%Z.
Proof.
  induction words as [|word words IH]; intros i rs a b Hi Hrs Hscan Hb.
  - simpl in Hscan. inversion Hscan. congruence.
  - cbn [scan_reference] in Hscan.
    set (rs' := if (0 <? i)%Z && (rs =? -1)%Z && startswith word key
                then i else rs) in *.
    assert (Hrs' : (rs' = -1 \/ 1 <= rs' < i + 1)%Z).
    { unfold rs'. destruct ((0 <? i)%Z && (rs =? -1)%Z && startswith word key) eqn:Hc.
      - apply andb_prop in Hc. destruct Hc as [Hc _].
        apply andb_prop in Hc. destruct Hc as [Hc _].
        apply Z.ltb_lt in Hc. right. lia.
      - destruct Hrs; [left; assumption|right; lia]. }
    assert (Hlen : Z.of_nat (length (word :: words)) = (Z.of_nat (length words) + 1)%Z)
      by (simpl length; lia).
    destruct (negb (rs' =? -1)%Z) eqn:Hfound.
    + destruct (endswith word (lit ")") || contains ")"%char word).
      * inversion Hscan; subst a b.
        apply negb_true_iff, Z.eqb_neq in Hfound. lia.
      * destruct (IH (i + 1)%Z rs' a b ltac:(lia) Hrs' Hscan Hb). lia.
    + destruct (IH (i + 1)%Z rs' a b ltac:(lia) Hrs' Hscan Hb). lia.
Qed.

Lemma move_reference_length ws (ref_start ref_end : Z) (target_position : nat) :
  (0 <= ref_start <= ref_end)%Z -> (ref_end < Z.of_nat (length ws))%Z ->
  length (move_reference ws ref_start ref_end target_position) = length ws.
Proof.
  intros Hse Hlen. unfold move_reference, upto, from, slice.
  rewrite !length_app, !length_firstn, !length_skipn, !length_app,
    !length_firstn, !length_skipn.
  lia.
Qed.

(** A round of the corrector that reorders moves a run that starts after
    the first entry, and keeps every entry. *)
Lemma fix_one_moves_later_run original_text ws ref reordered :
  fix_one original_text ws ref = Some reordered ->
  exists ref_start ref_end target_position,
    (1 <= ref_start <= ref_end)%Z /\ (ref_end < Z.of_nat (length ws))%Z /\
    reordered = move_reference ws ref_start ref_end target_position.
Proof.
  unfold fix_one.
  destruct (existsb _ _ && negb _); [|discriminate].
  destruct (0 <? find original_text ref)%Z; [|discriminate].
  destruct (scan_reference _ 0 (-1) (map word_of ws)) as [a b] eqn:Hscan.
  destruct (negb (a =? -1)%Z && negb (b =? -1)%Z) eqn:Hfound; [|discriminate].
  intros Heq. inversion Heq; subst reordered.
  apply andb_prop in Hfound. destruct Hfound as [_ Hb].
  apply negb_true_iff, Z.eqb_neq in Hb.
  destruct (scan_reference_bounds _ _ 0%Z (-1)%Z a b ltac:(lia) ltac:(left; reflexivity)
              Hscan Hb) as [Hab Hlt].
  rewrite length_map in Hlt.
  exists a, b, (length (split (upto (Z.to_nat (find original_text ref)) original_text))).
  repeat split; try lia.
Qed.

(** Length (X3): the corrector neither loses nor duplicates an entry. *)
Lemma fix_reference_order_length original_text ws :
  length (_fix_reference_order original_text ws) = length ws.
Proof.
  unfold _fix_reference_order.
  destruct (findall citation_pattern original_text) as [|r refs]; [reflexivity|].
  generalize (r :: refs). intros l.
  induction l as [|ref l IH]; simpl; [reflexivity|].
  destruct (fix_one original_text ws ref) as [reordered|] eqn:Hone; [|exact IH].
  apply fix_one_moves_later_run in Hone.
  destruct Hone as (a & b & t & Hab & Hlt & ->).
  apply move_reference_length; lia.
Qed.
End CorrectorFacts.

(** Claim C1 on the example of the specification: the citation of
    "The verse (Al-A'raf 7:28) states clearly that" heads the timing list,
    as two raw tokens, as the one entry the expander merges them into, or
    with its parenthesis dropped, and the corrector returns the list as it
    got it. *)
Theorem correct_leaves_front_citation :
  let text := lit "The verse (Al-A'raf 7:28) states clearly that" in
  let raw := entries ["(Al-A'raf"; "7:28)"; "The"; "verse"; "states";
                      "clearly"; "that"]%string in
  let merged := entries ["(Al-A'raf 7:28)"; "The"; "verse"; "states";
                         "clearly"; "that"]%string in
  let bare := entries ["Al-A'raf"; "7:28)"; "The"; "verse"; "states";
                       "clearly"; "that"]%string in
  findall citation_pattern text = [lit "(Al-A'raf 7:28)"] /\
  correct text raw = raw /\
  correct text merged = merged /\
  correct text bare = bare.
Proof. vm_compute. repeat split. Qed.

(** What the corrector does move: a run that starts after the first
    entry. *)
Example correct_moves_later_run :
  correct (lit "The verse (Al-A'raf 7:28) states clearly that")
    (entries ["The"; "Al-A'raf"; "7:28)"; "verse"; "states"; "clearly"; "that"]%string)
  = [(lit "The", 0, 1); (lit "verse", 3, 4); (lit "Al-A'raf", 1, 2);
     (lit "7:28)", 2, 3); (lit "states", 4, 5); (lit "clearly", 5, 6);
     (lit "that", 6, 7)].
Proof. vm_compute. reflexivity. Qed.

(** * Further properties *)

Import Timeline.
Unset Implicit Arguments.

(** ** Words of the estimate *)

Section EstimateWords.
Context {F : Type} `{Arith F}.

Lemma adjusted_durations_length_any (words : list str) (duration : F) :
  length (adjusted_durations words duration) = length words.
Proof.
  unfold adjusted_durations.
  assert (Hi : length (initial_durations words duration) = length words)
    by (unfold initial_durations; apply length_map).
  destruct (special_case_indices words); [exact Hi|].
  destruct (_ <? _)%nat; [|exact Hi].
  destruct (ltb _ _); [|exact Hi].
  rewrite length_map. exact Hi.
Qed.

Lemma accumulate_words (words : list str) : forall (current_time : F) durations,
  length durations = length words ->
  map word_of (accumulate current_time words durations) = words.
Proof.
  induction words as [|w words IH]; intros c [|d durations] Hlen;
    simpl in *; try reflexivity; try discriminate.
  unfold word_of at 1. simpl. rewrite IH; [reflexivity|lia].
Qed.

Lemma normalize_words (l : list (timing F)) (duration : F) :
  map word_of (normalize l duration) = map word_of l.
Proof.
  unfold normalize. destruct l as [|t l]; [reflexivity|].
  destruct (ltb _ _); [|reflexivity].
  rewrite map_map. apply map_ext. intros u. reflexivity.
Qed.

(** X4.  The estimate holds one entry per token of the text, in the order
    of the text, with the token as its word. *)
Theorem estimate_words (text : str) (duration : F) :
  map word_of (_generate_approximate_word_timings text duration) = split text.
Proof.
  unfold _generate_approximate_word_timings.
  destruct (split text) as [|w words] eqn:Hs; [reflexivity|].
  rewrite normalize_words. apply accumulate_words.
  apply adjusted_durations_length_any.
Qed.
End EstimateWords.

(** ** The estimator as a call: exact arithmetic and binary64 *)

Section RaisingFacts.
Context {F : Type} `{Arith F} `{Raising.ZeroTest F}.


End RaisingFacts.

Lemma Q_zero_above (x : Q) : 0 < x -> Raising.is_zero x = false.
Proof.
  unfold Raising.is_zero, Raising.Q_zero, Qlt. simpl. intros Hx.
  apply Z.eqb_neq. lia.
Qed.

(** In exact arithmetic, with a token and a duration above zero, no
    divisor is zero: the call returns. *)
Lemma exact_call_returns (text : str) (duration : Q) :
  split text <> [] -> 0 < duration ->
  Raising._generate_approximate_word_timings text duration
  = Returns (_generate_approximate_word_timings text duration).
Proof.
  intros Hne Hd.
  destruct (estimate_divisions_defined text duration Hne Hd)
    as (Hlen & Htotal & Hlast).
  unfold Raising._generate_approximate_word_timings,
    _generate_approximate_word_timings.
  destruct (split text) as [|w words] eqn:Hs; [congruence|].
  unfold Raising.truediv at 1. rewrite (Q_zero_above _ Hlen). cbn [bind].
  change (map (fun word => mul (word_length_factor word)
                             (div duration (len_f (w :: words)))) (w :: words))
    with (initial_durations (w :: words) duration).
  assert (Hadj : Raising.adjusted_durations (w :: words) duration
                   (initial_durations (w :: words) duration)
                 = Returns (adjusted_durations (w :: words) duration)).
  { unfold Raising.adjusted_durations, adjusted_durations.
    destruct (special_case_indices (w :: words)) as [|i special];
      [reflexivity|].
    destruct (length (i :: special) <? length (w :: words))%nat;
      [|reflexivity].
    destruct (ltb duration (pysum (initial_durations (w :: words) duration)))
      eqn:Hlt; [|reflexivity].
    unfold Raising.truediv. rewrite Q_zero_above; [reflexivity|].
    apply Htotal. apply Qltb_lt. exact Hlt. }
  rewrite Hadj. cbn [bind].
  change (float_lit 0%Q) with 0%Q in *.
  unfold Raising.normalize, normalize.
  destruct (accumulate 0 (w :: words) (adjusted_durations (w :: words) duration))
    as [|t l] eqn:Hacc; [reflexivity|].
  destruct (ltb _ _); [|reflexivity].
  unfold Raising.truediv. rewrite (Q_zero_above _ Hlast). reflexivity.
Qed.







(** The float literals of the source, as Python reads them. *)
Lemma binary64_literals :
  float_lit 0.5%Q = 0x1p-1%float /\
  float_lit 0.6%Q = 0x1.3333333333333p-1%float /\
  float_lit 0.01%Q = 0x1.47ae147ae147bp-7%float /\
  float_lit 4%Q = 0x1p+2%float /\
  float_lit 3%Q = 0x1.8p+1%float /\
  float_lit 2%Q = 0x1p+1%float /\
  float_lit 0%Q = 0%float.
Proof. repeat split; vm_compute; reflexivity. Qed.

(** A divisor that underflows to zero raises: with the duration
    [-5e-324] the raw durations of "1 a" are both [-0.0], their sum is
    [0.0] however it is added, above the duration, and line 632 divides
    by it. *)
Lemma underflow_raises_zero_division :
  Raising._generate_approximate_word_timings (lit "1 a") (-0x1p-1074)%float
  = Raises ZeroDivisionError.
Proof. vm_compute. reflexivity. Qed.

(** ** Timelines *)

Lemma tiles_app (a m b : Q) (l1 l2 : list (timing Q)) :
  tiles a l1 m -> tiles m l2 b -> tiles a (l1 ++ l2) b.
Proof.
  revert a. induction l1 as [|t l1 IH]; simpl; intros a H1 H2.
  - subst m. exact H2.
  - destruct H1 as (Hs & Hle & H1). repeat split; auto.
Qed.

Lemma tiles_split (a b : Q) (l1 l2 : list (timing Q)) :
  tiles a (l1 ++ l2) b -> tiles a l1 (last_end l1 a) /\ tiles (last_end l1 a) l2 b.
Proof.
  revert a. induction l1 as [|t l1 IH]; simpl; intros a Ht.
  - split; [reflexivity|exact Ht].
  - destruct Ht as (Hs & Hle & Ht). destruct (IH _ Ht) as [H1 H2].
    repeat split; auto.
Qed.

Lemma tiles_le (a b : Q) (l : list (timing Q)) : tiles a l b -> a <= b.
Proof.
  revert a. induction l as [|t l IH]; simpl; intros a Ht.
  - subst b. apply Qle_refl.
  - destruct Ht as (Hs & Hle & Ht). subst a.
    eapply Qle_trans; [exact Hle|exact (IH _ Ht)].
Qed.

Lemma tiles_last_end (a b : Q) (l : list (timing Q)) :
  tiles a l b -> last_end l a = b.
Proof.
  revert a. induction l as [|t l IH]; simpl; intros a Ht; [exact Ht|].
  destruct Ht as (_ & _ & Ht). exact (IH _ Ht).
Qed.

Lemma split_point_between (s e : Q) :
  s <= e -> s <= split_point s e /\ split_point s e <= e.
Proof. intros Hle. unfold split_point. simpl. split; lra. Qed.

(** What an entry becomes tiles the interval of the entry. *)
Lemma expand_entry_tiles (word : str) (s e : Q) (emitted : list (timing Q)) :
  s <= e -> expand_entry word s e = Returns emitted -> tiles s emitted e.
Proof.
  intros Hle. destruct (split_point_between s e Hle) as [H1 H2].
  unfold expand_entry. fold (split_point s e).
  destruct (matches verse_reference_pattern word).
  - destruct (contains "-"%char _); intros Heq; inversion Heq; simpl;
      repeat split; auto.
  - destruct (matches numeric_pattern word && (1 <? length word)%nat).
    + destruct (int_float word) as [num|err]; simpl; [|discriminate].
      destruct ((20 <? num)%Z && (num <? 100)%Z).
      * destruct (0 <? num mod 10)%Z; intros Heq; inversion Heq; simpl;
          repeat split; auto.
      * intros Heq; inversion Heq; simpl; repeat split; auto.
    + intros Heq; inversion Heq; simpl; repeat split; auto.
Qed.

Lemma expand_loop_tiles (ws : list (timing Q)) : forall a b out,
  tiles a ws b -> _expand_numeric_references ws = Returns out -> tiles a out b.
Proof.
  remember (length ws) as n eqn:Hn. revert ws Hn.
  induction n as [n IH] using lt_wf_ind. intros ws Hn a b out Ht Hout.
  destruct ws as [|[[word st] en] rest].
  - rewrite expand_nil in Hout. inversion Hout. exact Ht.
  - rewrite expand_cons in Hout. case_citation_at citation after Hc.
    + pose proof (citation_at_shorter _ _ _ Hc) as Hlt.
      apply citation_at_found in Hc.
      destruct Hc as (first & body & closing & Hws & Hfirst & ->).
      destruct (_expand_numeric_references after) as [out'|err] eqn:Hafter;
        [|discriminate].
      simpl in Hout. inversion Hout; subst out. clear Hout.
      rewrite Hws in Ht. apply tiles_split in Ht. destruct Ht as [Hrun Hrest].
      rewrite last_end_snoc in Hrun, Hrest.
      assert (Hstart : start_of first = a).
      { destruct body as [|t body]; simpl in Hfirst; inversion Hfirst; subst;
          simpl in Hrun; tauto. }
      simpl. unfold start_of at 1 2, end_of at 1 2. simpl.
      split; [exact Hstart|]. split.
      * rewrite Hstart. exact (tiles_le _ _ _ Hrun).
      * apply (IH (length after) ltac:(subst n; exact Hlt) after eq_refl
                 _ _ _ Hrest Hafter).
    + destruct (expand_entry word st en) as [emitted|err] eqn:He; [|discriminate].
      destruct (_expand_numeric_references rest) as [out'|err] eqn:Hrest;
        [|discriminate].
      simpl in Hout. inversion Hout; subst out. clear Hout.
      simpl in Ht. destruct Ht as (Hs & Hle & Ht).
      unfold start_of, end_of in Hs, Hle, Ht. simpl in Hs, Hle, Ht. subst a.
      apply (tiles_app st en b).
      * exact (expand_entry_tiles word st en emitted Hle He).
      * apply (IH (length rest) ltac:(subst n; simpl; lia) rest eq_refl
                 _ _ _ Ht Hrest).
Qed.

(** X5.  The expander keeps a timeline a timeline: entries that run from
    [a] to [b] without a gap become entries that run from [a] to [b]
    without a gap, merged citations and split numerals included. *)
Theorem expand_tiles (ws out : list (timing Q)) (a b : Q) :
  tiles a ws b -> expand ws = Returns out ->
  tiles a out b /\ a <= b /\ last_end out a = b.
Proof.
  intros Ht Hout.
  pose proof (expand_loop_tiles ws a b out Ht Hout) as Hres.
  split; [exact Hres|]. split.
  - exact (tiles_le a b out Hres).
  - exact (tiles_last_end a b out Hres).
Qed.

Lemma expand_tiles_witness :
  tiles 0 [(lit "See", 0, 1); (lit "(Al-A'raf 7:28)", 1, 3)] 3.
Proof.
  apply (expand_tiles [(lit "See", 0, 1); (lit "(Al-A'raf", 1, 2);
                       (lit "7:28)", 2, 3)]
           [(lit "See", 0, 1); (lit "(Al-A'raf 7:28)", 1, 3)] 0 3).
  - simpl. repeat split; discriminate.
  - reflexivity.
Defined.

Lemma accumulate_tiles (words : list str) : forall (c : Q) durations,
  Forall above_zero durations ->
  tiles c (accumulate c words durations)
    (last_end (accumulate c words durations) c).
Proof.
  induction words as [|w words IH]; intros c [|d durations] Hpos;
    simpl; try reflexivity.
  inversion Hpos as [|? ? Hd Hrest]; subst. unfold above_zero in Hd.
  unfold start_of, end_of. simpl. split; [reflexivity|]. split.
  - rewrite <- (Qplus_0_r c) at 1. apply Qplus_le_r. apply Qlt_le_weak. exact Hd.
  - apply IH. exact Hrest.
Qed.

Lemma tiles_scale (scale : Q) (l : list (timing Q)) : forall a b,
  0 <= scale -> tiles a l b ->
  tiles (a * scale)
    (map (fun t => (word_of t, mul (start_of t) scale, mul (end_of t) scale)) l)
    (b * scale).
Proof.
  induction l as [|t l IH]; simpl; intros a b Hs Ht.
  - subst b. reflexivity.
  - destruct t as [[w s] e]. unfold start_of, end_of in *. simpl in *.
    destruct Ht as (Hst & Hle & Ht).
    split; [rewrite Hst; reflexivity|]. split.
    + apply Qmult_le_compat_r; assumption.
    + apply IH; assumption.
Qed.

(** The estimate is a timeline from 0 to within 0.01 of the duration. *)
Lemma estimate_is_timeline (text : str) (duration : Q) :
  split text <> [] -> 0 < duration ->
  exists a b,
    tiles a (_generate_approximate_word_timings text duration) b /\
    a == 0 /\ Qabs (b - duration) <= 0.01.
Proof.
  intros Hne Hd.
  pose proof (adjusted_durations_pos (split text) duration Hne Hd) as Hpos.
  pose proof (accumulate_tiles (split text) 0 _ Hpos) as Htiles.
  destruct (estimate_shape text duration Hne Hd)
    as (first & rest & Hacc & _ & _ & Hlast).
  unfold _generate_approximate_word_timings.
  destruct (split text) as [|w words] eqn:Hs; [congruence|].
  change (float_lit 0%Q) with 0%Q. rewrite Hacc in *. unfold normalize.
  rewrite (last_end_nonempty (first :: rest) 0 duration) in Htiles
    by discriminate.
  destruct (ltb _ _) eqn:Hfar.
  - set (scale := div duration (last_end (first :: rest) duration)).
    assert (Hscale : 0 < scale) by (apply Qdiv_pos; assumption).
    exists (0 * scale), (last_end (first :: rest) duration * scale).
    split; [apply tiles_scale; [apply Qlt_le_weak; exact Hscale|exact Htiles]|].
    split; [ring|].
    assert (Hexact : last_end (first :: rest) duration * scale - duration == 0).
    { unfold scale. simpl. field. intros Hz. rewrite Hz in Hlast.
      exact (Qlt_irrefl 0 Hlast). }
    rewrite Hexact. discriminate.
  - exists 0, (last_end (first :: rest) duration).
    split; [exact Htiles|]. split; [reflexivity|].
    simpl in Hfar. apply Qltb_ge in Hfar. exact Hfar.
Qed.

(** X6.  Estimate, then expand: for a text with a token and a duration
    above zero, what the expander returns is a timeline that starts at 0
    and ends within 0.01 of the duration (the timings of the test mode). *)
Theorem test_mode_timings_are_timeline (text : str) (duration : Q)
    (out : list (timing Q)) :
  split text <> [] -> 0 < duration ->
  test_mode_word_timings text duration = Returns out ->
  exists a b, tiles a out b /\ a == 0 /\ Qabs (b - duration) <= 0.01.
Proof.
  intros Hne Hd Hout.
  destruct (estimate_is_timeline text duration Hne Hd) as (a & b & Ht & Ha & Hb).
  exists a, b. split; [|split; assumption].
  exact (expand_loop_tiles _ a b out Ht Hout).
Qed.

Lemma test_mode_timings_are_timeline_witness :
  exists out a b,
    test_mode_word_timings (lit "verse 73") 3%Q = Returns out /\
    tiles a out b /\ a == 0 /\ Qabs (b - 3) <= 0.01.
Proof.
  assert (Hout : exists out,
            test_mode_word_timings (lit "verse 73") 3%Q = Returns out)
    by (vm_compute; eexists; reflexivity).
  destruct Hout as [out Hout].
  destruct (test_mode_timings_are_timeline (lit "verse 73") 3 out)
    as (a & b & Ht & Ha & Hb).
  - discriminate.
  - reflexivity.
  - exact Hout.
  - exists out, a, b. auto.
Defined.

(** ** The corrector only reorders *)

Section CorrectorPermutes.
Context {F : Type}.
Implicit Types (ws : list (timing F)).

Lemma move_reference_permutation ws (ref_start ref_end : Z) (target_position : nat) :
  (0 <= ref_start <= ref_end)%Z ->
  Permutation (move_reference ws ref_start ref_end target_position) ws.
Proof.
  intros Hse. unfold move_reference, upto, from, slice.
  set (a := Z.to_nat ref_start). set (b := Z.to_nat (ref_end + 1)).
  assert (Hab : (a <= b)%nat) by (unfold a, b; lia).
  set (new := firstn a ws ++ skipn b ws).
  set (t := Nat.min target_position (length new)).
  set (ref := firstn (b - a) (skipn a ws)).
  transitivity (ref ++ new).
  - transitivity (ref ++ firstn t new ++ skipn t new).
    + rewrite app_assoc. rewrite (app_assoc ref).
      apply Permutation_app_tail. apply Permutation_app_comm.
    + rewrite firstn_skipn. reflexivity.
  - unfold ref, new.
    assert (Hsplit : ws = firstn a ws ++ firstn (b - a) (skipn a ws) ++ skipn b ws).
    { rewrite <- (firstn_skipn a ws) at 1. f_equal.
      rewrite <- (firstn_skipn (b - a) (skipn a ws)) at 1. f_equal.
      rewrite skipn_skipn. f_equal. lia. }
    apply Permutation_trans
      with (firstn a ws ++ firstn (b - a) (skipn a ws) ++ skipn b ws);
      [|rewrite <- Hsplit; reflexivity].
    rewrite !app_assoc. apply Permutation_app_tail. apply Permutation_app_comm.
Qed.

Lemma fix_loop_permutation (original_text : str) ws (refs : list str) :
  Permutation (fix_loop original_text ws refs) ws.
Proof.
  induction refs as [|ref refs IH]; simpl; [reflexivity|].
  destruct (fix_one original_text ws ref) as [reordered|] eqn:Hone; [|exact IH].
  apply fix_one_moves_later_run in Hone.
  destruct Hone as (a & b & t & Hab & Hlt & ->).
  apply move_reference_permutation. lia.
Qed.

(** X7.  The corrector only reorders: its result holds the entries of its
    input, each as often as the input does, words and times untouched. *)
Theorem fix_reference_order_permutation (original_text : str) ws :
  Permutation (_fix_reference_order original_text ws) ws.
Proof.
  unfold _fix_reference_order.
  destruct (findall citation_pattern original_text) as [|r refs];
    [reflexivity|].
  apply fix_loop_permutation.
Qed.

(** The scan finds no run when no word after the first starts with the
    key. *)
Lemma scan_reference_none key (words : list str) : forall i ref_start,
  (forall word, In word words -> (0 < i)%Z -> startswith word key = false) ->
  (match words with
   | [] => True
   | _ :: later => forall word, In word later -> startswith word key = false
   end) ->
  ref_start = (-1)%Z ->
  fst (scan_reference key i ref_start words) = (-1)%Z.
Proof.
  induction words as [|word words IH]; intros i rs Hall Hlater Hrs;
    [exact Hrs|].
  cbn [scan_reference]. subst rs.
  destruct (0 <? i)%Z eqn:Hi.
  - apply Z.ltb_lt in Hi. rewrite (Hall word (or_introl eq_refl) Hi).
    cbn [andb negb Z.eqb]. simpl.
    apply IH; [|destruct words; [exact I|]|reflexivity].
    + intros w Hw _. apply Hlater. exact Hw.
    + intros w Hw. apply Hlater. right. exact Hw.
  - cbn [andb]. simpl.
    apply IH; [|destruct words; [exact I|]|reflexivity].
    + intros w Hw _. apply Hlater. exact Hw.
    + intros w Hw. apply Hlater. right. exact Hw.
Qed.

(** X8.  The corrector returns its input as it is whenever no entry after
    the first starts with the first word, parentheses stripped, of a
    citation of the text. *)
Theorem fix_reference_order_unchanged (original_text : str) ws :
  (forall ref word,
     In ref (findall citation_pattern original_text) ->
     In word (tl (map word_of ws)) ->
     startswith word (reference_key ref) = false) ->
  _fix_reference_order original_text ws = ws.
Proof.
  intros Hkeys. unfold _fix_reference_order.
  destruct (findall citation_pattern original_text) as [|r refs]; [reflexivity|].
  revert Hkeys. generalize (r :: refs). intros l Hkeys.
  induction l as [|ref l IH]; simpl; [reflexivity|].
  assert (Hone : fix_one original_text ws ref = None).
  { unfold fix_one.
    destruct (existsb _ _ && negb _); [|reflexivity].
    destruct (0 <? find original_text ref)%Z; [|reflexivity].
    pose proof (scan_reference_none
                  (strip_chr "("%char (nth 0 (split ref) []))
                  (map word_of ws) 0%Z (-1)%Z) as Hscan.
    destruct (scan_reference _ 0 (-1) (map word_of ws)) as [a b].
    simpl in Hscan. rewrite Hscan; [reflexivity| | |reflexivity].
    - intros w _ Hlt. lia.
    - destruct (map word_of ws) as [|w0 later] eqn:Hw; [exact I|].
      intros w Hin. apply (Hkeys ref w); [left; reflexivity|].
      simpl. exact Hin. }
  rewrite Hone. apply IH. intros ref' word Href Hword.
  apply (Hkeys ref' word); [right; exact Href|exact Hword].
Qed.
End CorrectorPermutes.

Lemma fix_reference_order_unchanged_witness :
  _fix_reference_order (lit "The verse (Al-A'raf 7:28) states")
    (entries ["The"; "verse"; "(Al-A'raf 7:28)"; "states"]%string)
  = entries ["The"; "verse"; "(Al-A'raf 7:28)"; "states"]%string.
Proof.
  apply (fix_reference_order_unchanged (lit "The verse (Al-A'raf 7:28) states")
           (entries ["The"; "verse"; "(Al-A'raf 7:28)"; "states"]%string)).
  intros ref word [<-|[]] [<-|[<-|[<-|[]]]]; reflexivity.
Defined.

(** ** The timing path of the ElevenLabs provider *)

Lemma tiles_within (a b : Q) (l : list (timing Q)) (t : timing Q) :
  tiles a l b -> In t l -> a <= start_of t /\ start_of t <= end_of t /\ end_of t <= b.
Proof.
  revert a. induction l as [|u l IH]; simpl; intros a Ht Hin; [contradiction|].
  destruct Ht as (Hs & Hle & Ht). destruct Hin as [<-|Hin].
  - rewrite Hs. split; [apply Qle_refl|]. split; [rewrite <- Hs; exact Hle|].
    exact (tiles_le _ _ _ Ht).
  - destruct (IH _ Ht Hin) as (H1 & H2 & H3).
    split; [|split; assumption].
    eapply Qle_trans; [|exact H1]. rewrite <- Hs. exact Hle.
Qed.

(** X9.  Estimate, expand, reorder: for a text with a token and a duration
    above zero, every entry the ElevenLabs path returns lies between 0 and
    the duration plus 0.01, and none ends before it starts. *)
Theorem elevenlabs_timings_within_duration (text : str) (duration : Q)
    (result : list (timing Q)) (t : timing Q) :
  split text <> [] -> 0 < duration ->
  elevenlabs_word_timings text duration = Returns result ->
  In t result ->
  0 <= start_of t /\ start_of t <= end_of t /\ end_of t <= duration + 0.01.
Proof.
  intros Hne Hd Hres Hin. unfold elevenlabs_word_timings in Hres.
  destruct (_expand_numeric_references
              (_generate_approximate_word_timings text duration))
    as [out|err] eqn:Hout; [|discriminate].
  simpl in Hres. inversion Hres; subst result. clear Hres.
  destruct (estimate_is_timeline text duration Hne Hd) as (a & b & Ht & Ha & Hb).
  pose proof (expand_loop_tiles _ a b out Ht Hout) as Htiles.
  assert (Hin' : In t out).
  { revert Hin. unfold _fix_reference_order.
    destruct (findall citation_pattern text) as [|r refs]; [tauto|].
    apply Permutation_in. apply fix_loop_permutation. }
  destruct (tiles_within a b out t Htiles Hin') as (H1 & H2 & H3).
  apply Qabs_Qle_condition in Hb. destruct Hb as [_ Hb].
  split; [rewrite <- Ha; exact H1|]. split; [exact H2|].
  eapply Qle_trans; [exact H3|]. lra.
Qed.

Lemma elevenlabs_timings_within_duration_witness :
  exists result,
    elevenlabs_word_timings (lit "See (Al-A'raf 7:28) now") 4%Q = Returns result /\
    forall t, In t result ->
      0 <= start_of t /\ start_of t <= end_of t /\ end_of t <= 4 + 0.01.
Proof.
  assert (Hres : exists result,
            elevenlabs_word_timings (lit "See (Al-A'raf 7:28) now") 4%Q
            = Returns result)
    by (vm_compute; eexists; reflexivity).
  destruct Hres as [result Hres]. exists result. split; [exact Hres|].
  intros t Hin.
  apply (elevenlabs_timings_within_duration
           (lit "See (Al-A'raf 7:28) now") 4 result t).
  - discriminate.
  - reflexivity.
  - exact Hres.
  - exact Hin.
Defined.

(** ** Blank text *)

Lemma forallb_lstrip_by (p : ascii -> bool) (s : str) :
  forallb p (lstrip_by p s) = forallb p s.
Proof.
  induction s as [|c s IH]; simpl; [reflexivity|].
  destruct (p c) eqn:Hc; simpl; [exact IH|rewrite Hc; reflexivity].
Qed.

Lemma lstrip_by_nil (p : ascii -> bool) (s : str) :
  lstrip_by p s = [] <-> forallb p s = true.
Proof.
  induction s as [|c s IH]; simpl; [tauto|].
  destruct (p c); simpl; [exact IH|split; discriminate].
Qed.

Lemma forallb_rev {X : Type} (p : X -> bool) (l : list X) :
  forallb p (rev l) = forallb p l.
Proof.
  induction l as [|x l IH]; simpl; [reflexivity|].
  rewrite forallb_app, IH. simpl. rewrite andb_true_r. apply andb_comm.
Qed.

Lemma forallb_strip_by (p : ascii -> bool) (s : str) :
  forallb p (strip_by p s) = forallb p s.
Proof.
  unfold strip_by, rstrip_by.
  rewrite forallb_rev, forallb_lstrip_by, forallb_rev, forallb_lstrip_by.
  reflexivity.
Qed.

Lemma strip_by_nil (p : ascii -> bool) (s : str) :
  strip_by p s = [] <-> forallb p s = true.
Proof.
  unfold strip_by, rstrip_by. split.
  - intros Hs. apply (f_equal (@rev ascii)) in Hs. rewrite rev_involutive in Hs.
    simpl in Hs. apply lstrip_by_nil in Hs.
    rewrite forallb_rev, forallb_lstrip_by in Hs. exact Hs.
  - intros Hs. apply lstrip_by_nil in Hs. rewrite Hs. reflexivity.
Qed.

Lemma split_from_nil (s : str) : forall cur,
  split_from cur s = [] <-> cur = [] /\ forallb isspace s = true.
Proof.
  induction s as [|c s IH]; intros cur; simpl.
  - destruct cur; split; intros H; try tauto; try discriminate.
    destruct H; discriminate.
  - destruct (isspace c) eqn:Hc; simpl.
    + destruct cur as [|x cur].
      * rewrite IH. tauto.
      * split; [discriminate|intros [H _]; discriminate].
    + rewrite IH. split; [intros [H _]; discriminate|intros [_ H]; discriminate].
Qed.

(** A text is blank for [strip] exactly when it has no token for [split]. *)
Lemma strip_nil_iff_split_nil (text : str) : strip text = [] <-> split text = [].
Proof.
  unfold strip, split. rewrite strip_by_nil, split_from_nil. tauto.
Qed.

Lemma lstrip_by_decompose (p : ascii -> bool) (s : str) :
  exists pre, s = pre ++ lstrip_by p s /\ forallb p pre = true.
Proof.
  induction s as [|c s IH]; simpl.
  - exists []. auto.
  - destruct (p c) eqn:Hc.
    + destruct IH as (pre & Heq & Hpre). exists (c :: pre). simpl.
      rewrite Hc, Hpre. split; [f_equal; exact Heq|reflexivity].
    + exists []. auto.
Qed.

Lemma rstrip_by_decompose (p : ascii -> bool) (s : str) :
  exists tail, s = rstrip_by p s ++ tail /\ forallb p tail = true.
Proof.
  unfold rstrip_by.
  destruct (lstrip_by_decompose p (rev s)) as (pre & Heq & Hpre).
  exists (rev pre). split.
  - rewrite <- rev_app_distr, <- Heq, rev_involutive. reflexivity.
  - rewrite forallb_rev. exact Hpre.
Qed.

Lemma split_from_leading (pre s : str) :
  forallb isspace pre = true -> split_from [] (pre ++ s) = split_from [] s.
Proof.
  induction pre as [|c pre IH]; simpl; intros Hp; [reflexivity|].
  apply andb_prop in Hp. destruct Hp as [Hc Hp]. rewrite Hc. exact (IH Hp).
Qed.

Lemma split_from_spaces (tail : str) : forall cur,
  forallb isspace tail = true -> split_from cur tail = split_from cur [].
Proof.
  induction tail as [|c tail IH]; simpl; intros cur Ht; [reflexivity|].
  apply andb_prop in Ht. destruct Ht as [Hc Ht]. rewrite Hc.
  destruct cur as [|x cur]; [exact (IH [] Ht)|].
  rewrite (IH [] Ht). reflexivity.
Qed.

Lemma split_from_trailing (body tail : str) : forall cur,
  forallb isspace tail = true ->
  split_from cur (body ++ tail) = split_from cur body.
Proof.
  induction body as [|c body IH]; intros cur Ht.
  - apply split_from_spaces. exact Ht.
  - simpl. destruct (isspace c); [destruct cur|]; rewrite IH by exact Ht;
      reflexivity.
Qed.

(** [text.strip().split()] is [text.split()]. *)
Lemma split_strip (text : str) : split (strip text) = split text.
Proof.
  unfold split, strip, strip_by.
  destruct (lstrip_by_decompose isspace text) as (pre & Hpre & Hp).
  destruct (rstrip_by_decompose isspace (lstrip_by isspace text))
    as (tail & Htail & Ht).
  rewrite Hpre at 2. rewrite split_from_leading by exact Hp.
  rewrite Htail at 2. rewrite split_from_trailing by exact Ht.
  reflexivity.
Qed.

(** X10.  What [generate_speech] lets through: for a text that is not
    blank, the stripped text has the tokens of the text, at least one;
    with the arithmetic on times exact, the duration estimated from its
    length when the audio cannot be measured is above zero, and for every
    duration above zero the estimator returns one entry per token. *)
Theorem nonblank_text_meets_estimator (text : str) :
  strip text <> [] ->
  split (strip text) = split text /\
  split text <> [] /\
  0 < audio_duration (F := Q) (strip text) None /\
  forall duration : Q, 0 < duration ->
    exists word_timings,
      Raising._generate_approximate_word_timings (strip text) duration
      = Returns word_timings /\
      map word_of word_timings = split text.
Proof.
  intros Hne. split; [apply split_strip|].
  assert (Hs : split text <> [])
    by (intros Hs; apply Hne; apply strip_nil_iff_split_nil; exact Hs).
  split; [exact Hs|]. split.
  - unfold audio_duration. simpl. apply Qdiv_pos; [|reflexivity].
    apply len_f_pos. exact Hne.
  - intros duration Hd. eexists. split.
    + apply exact_call_returns; [rewrite split_strip; exact Hs|exact Hd].
    + unfold _generate_approximate_word_timings. rewrite split_strip.
      destruct (split text) as [|w words] eqn:Hw; [congruence|].
      rewrite normalize_words. apply accumulate_words.
      apply adjusted_durations_length_any.
Qed.

Lemma nonblank_text_meets_estimator_witness :
  split (strip (lit "  hello world ")) = split (lit "  hello world ") /\
  split (lit "  hello world ") <> [] /\
  0 < audio_duration (F := Q) (strip (lit "  hello world ")) None /\
  forall duration : Q, 0 < duration ->
    exists word_timings,
      Raising._generate_approximate_word_timings
        (strip (lit "  hello world ")) duration = Returns word_timings /\
      map word_of word_timings = split (lit "  hello world ").
Proof.
  apply (nonblank_text_meets_estimator (lit "  hello world ")). discriminate.
Defined.

(** ** Verse references *)

Lemma split_on_from_no_sep (sep : ascii) (s : str) : forall cur,
  ~ In sep s -> split_on_from sep cur s = [rev cur ++ s].
Proof.
  induction s as [|c s IH]; simpl; intros cur Hno.
  - rewrite app_nil_r. reflexivity.
  - destruct (chr_eqb c sep) eqn:Hc.
    + apply Ascii.eqb_eq in Hc. exfalso. apply Hno. left. exact Hc.
    + rewrite IH by (intros Hin; apply Hno; right; exact Hin).
      simpl. rewrite <- app_assoc. reflexivity.
Qed.

Lemma split_on_from_first (sep : ascii) (a b : str) : forall cur,
  ~ In sep a ->
  split_on_from sep cur (a ++ sep :: b) = (rev cur ++ a) :: split_on_from sep [] b.
Proof.
  induction a as [|c a IH]; simpl; intros cur Hno.
  - unfold chr_eqb. rewrite Ascii.eqb_refl, app_nil_r. reflexivity.
  - destruct (chr_eqb c sep) eqn:Hc.
    + apply Ascii.eqb_eq in Hc. exfalso. apply Hno. left. exact Hc.
    + rewrite IH by (intros Hin; apply Hno; right; exact Hin).
      simpl. rewrite <- app_assoc. reflexivity.
Qed.

Lemma digits_no_chr (c : ascii) (ds : str) :
  isdigit c = false -> forallb isdigit ds = true -> ~ In c ds.
Proof.
  intros Hc Hds Hin. apply (forallb_digit_In _ _ Hds) in Hin. congruence.
Qed.

(** A token [verse_reference_pattern] accepts is a chapter of digits, a
    colon, and a verse part without a colon or a parenthesis. *)
Lemma verse_shape (w : str) :
  matches verse_reference_pattern w = true ->
  exists chapter verse,
    w = chapter ++ ":"%char :: verse /\
    chapter <> [] /\ forallb isdigit chapter = true /\
    ~ In ":"%char verse /\ ~ In "("%char verse.
Proof.
  intros Hm. apply matches_iff in Hm.
  destruct Hm as (pre & post & -> & Hl).
  unfold verse_reference_pattern in Hl.
  destruct Hl as (ch & pre2 & -> & Hch & col & pre3 & -> & (c & -> & Hc)
                  & vs & pre4 & -> & Hvs & rg & e & -> & Hrg & -> & Hnl).
  apply lang_plus in Hch. destruct Hch as [Hne Hch].
  apply lang_plus in Hvs. destruct Hvs as [_ Hvs].
  apply Ascii.eqb_eq in Hc. subst c.
  assert (Hrange : forall x, x = ":"%char \/ x = "("%char -> ~ In x rg).
  { intros x Hx. destruct Hrg as [->|(dash & ds & -> & (d & -> & Hd) & Hds)];
      [tauto|].
    apply lang_plus in Hds. destruct Hds as [_ Hds].
    apply Ascii.eqb_eq in Hd. subst d. simpl. intros [Hin|Hin].
    - destruct Hx; subst x; discriminate.
    - revert Hin. apply digits_no_chr; [|exact Hds].
      destruct Hx; subst x; reflexivity. }
  assert (Hpost : forall x, x = ":"%char \/ x = "("%char -> ~ In x post).
  { intros x Hx. destruct Hnl as [->| ->]; simpl; [tauto|].
    intros [Hin|[]]. destruct Hx; subst x; discriminate. }
  exists ch, ((vs ++ rg ++ []) ++ post). split.
  - simpl. repeat (rewrite <- app_assoc; simpl). reflexivity.
  - split; [exact Hne|]. split; [exact Hch|].
    split; rewrite app_nil_r, !in_app_iff; intros [[Hin|Hin]|Hin].
    + revert Hin. apply digits_no_chr; [reflexivity|exact Hvs].
    + exact (Hrange _ (or_introl eq_refl) Hin).
    + exact (Hpost _ (or_introl eq_refl) Hin).
    + revert Hin. apply digits_no_chr; [reflexivity|exact Hvs].
    + exact (Hrange _ (or_intror eq_refl) Hin).
    + exact (Hpost _ (or_intror eq_refl) Hin).
Qed.

(** X11.  A verse reference standing alone becomes two entries, the
    chapter over the first 60% of its interval and the verse part over the
    rest; joined by a colon their words spell the reference again. *)
Theorem expand_splits_verse_reference {F : Type} {A : Arith F}
    (word : str) (start_time end_time : F) :
  matches verse_reference_pattern word = true ->
  exists chapter verse,
    word = chapter ++ ":"%char :: verse /\
    chapter <> [] /\ forallb isdigit chapter = true /\
    ~ In ":"%char verse /\
    expand [(word, start_time, end_time)] =
    Returns [(chapter, start_time, split_point start_time end_time);
             (verse, split_point start_time end_time, end_time)].
Proof.
  intros Hm.
  destruct (verse_shape word Hm) as (chapter & verse & Hw & Hne & Hch & Hcol & Hpar).
  exists chapter, verse. repeat split; try assumption.
  assert (Hnoparen : contains "("%char word = false).
  { destruct (contains "("%char word) eqn:Hc; [|reflexivity].
    exfalso. unfold contains in Hc. apply existsb_exists in Hc.
    destruct Hc as (c & Hin & Hc). apply Ascii.eqb_eq in Hc. subst c.
    rewrite Hw, in_app_iff in Hin. destruct Hin as [Hin|[Hin|Hin]].
    - revert Hin. apply digits_no_chr; [reflexivity|exact Hch].
    - discriminate.
    - exact (Hpar Hin). }
  unfold expand. rewrite expand_cons.
  rewrite (citation_at_no_paren _ _ _ _ Hnoparen), expand_nil.
  unfold expand_entry. rewrite Hm.
  assert (Hparts : split_on ":"%char word = [chapter; verse]).
  { unfold split_on. rewrite Hw.
    rewrite split_on_from_first
      by (apply digits_no_chr; [reflexivity|exact Hch]).
    rewrite split_on_from_no_sep by exact Hcol. reflexivity. }
  rewrite Hparts. cbn [nth]. unfold split_point.
  destruct (contains "-"%char verse); reflexivity.
Qed.

Lemma expand_splits_verse_reference_witness :
  exists chapter verse,
    lit "99:7-8" = chapter ++ ":"%char :: verse /\
    chapter <> [] /\ forallb isdigit chapter = true /\
    ~ In ":"%char verse /\
    expand [(lit "99:7-8", 0%Q, 1%Q)] =
    Returns [(chapter, 0%Q, split_point 0%Q 1%Q);
             (verse, split_point 0%Q 1%Q, 1%Q)].
Proof.
  apply (expand_splits_verse_reference (lit "99:7-8") 0%Q 1%Q). reflexivity.
Defined.

(** ** Shares of the timeline *)

Lemma weighted_shares (avg : Q) (words : list str) :
  Forall2 (fun d token => d == weight token * avg)
    (map (fun word => mul (word_length_factor word) avg) words) words.
Proof.
  induction words as [|w words IH]; simpl; constructor; [|exact IH].
  rewrite word_length_factor_weight. reflexivity.
Qed.

Lemma scaled_shares (avg k : Q) (words : list str) :
  Forall2 (fun d token => d == weight token * (avg * k))
    (map (fun d => mul d k)
       (map (fun word => mul (word_length_factor word) avg) words)) words.
Proof.
  induction words as [|w words IH]; simpl; constructor; [|exact IH].
  rewrite word_length_factor_weight. ring.
Qed.

Lemma adjusted_durations_shares (words : list str) (duration : Q) :
  words <> [] -> 0 < duration ->
  exists c, 0 < c /\
    Forall2 (fun d token => d == weight token * c)
      (adjusted_durations words duration) words.
Proof.
  intros Hne Hd.
  assert (Havg : 0 < duration / len_f words)
    by (apply Qdiv_pos; [exact Hd|apply len_f_pos; exact Hne]).
  assert (Hplain : exists c, 0 < c /\
            Forall2 (fun d token => d == weight token * c)
              (initial_durations words duration) words).
  { exists (duration / len_f words). split; [exact Havg|].
    apply weighted_shares. }
  unfold adjusted_durations.
  destruct (special_case_indices words); [exact Hplain|].
  destruct (_ <? _)%nat; [|exact Hplain].
  destruct (ltb duration _) eqn:Hlt; [|exact Hplain].
  simpl in Hlt. apply Qltb_lt in Hlt.
  exists (duration / len_f words
          * (duration / pysum (initial_durations words duration))).
  split; [|apply scaled_shares].
  apply Qmult_lt_0_compat; [exact Havg|].
  apply Qdiv_pos; [exact Hd|]. eapply Qlt_trans; [exact Hd|exact Hlt].
Qed.

Lemma accumulate_shares (c1 : Q) (words : list str) : forall (c : Q) durations,
  Forall2 (fun d token => d == weight token * c1) durations words ->
  Forall2 (fun t token => end_of t - start_of t == weight token * c1)
    (accumulate c words durations) words.
Proof.
  induction words as [|w words IH]; intros c durations Hf;
    inversion Hf as [|d w' ds ws' Hd Hrest]; subst; simpl; constructor.
  - unfold end_of, start_of. simpl. rewrite <- Hd. ring.
  - apply IH. exact Hrest.
Qed.

(** X12.  The estimate shares the timeline among the tokens in proportion
    to their weights: every entry lasts its token's weight times one
    common factor above zero. *)
Theorem estimate_shares_follow_weights (text : str) (duration : Q) :
  split text <> [] -> 0 < duration ->
  exists c, 0 < c /\
    Forall2 (fun t token => end_of t - start_of t == weight token * c)
      (_generate_approximate_word_timings text duration) (split text).
Proof.
  intros Hne Hd.
  destruct (adjusted_durations_shares (split text) duration Hne Hd)
    as (c1 & Hc1 & Hadj).
  pose proof (accumulate_shares c1 (split text) 0 _ Hadj) as Hacc.
  destruct (estimate_shape text duration Hne Hd)
    as (first & rest & Heq & _ & _ & Hlast).
  unfold _generate_approximate_word_timings.
  destruct (split text) as [|w words] eqn:Hs; [congruence|].
  change (float_lit 0%Q) with 0%Q. rewrite Heq in *. unfold normalize.
  destruct (ltb _ _).
  - set (scale := div duration (last_end (first :: rest) duration)).
    assert (Hscale : 0 < scale) by (apply Qdiv_pos; assumption).
    exists (c1 * scale). split; [apply Qmult_lt_0_compat; assumption|].
    revert Hacc. generalize (first :: rest) (w :: words). clear.
    intros l ws Hf. induction Hf as [|t token l ws Ht Hf IH]; simpl;
      constructor; [|exact IH].
    unfold end_of at 1, start_of at 1. simpl.
    setoid_replace (end_of t * scale - start_of t * scale)
      with ((end_of t - start_of t) * scale) by ring.
    rewrite Ht. ring.
  - exists c1. split; [exact Hc1|exact Hacc].
Qed.

Lemma estimate_shares_follow_weights_witness :
  exists c, 0 < c /\
    Forall2 (fun t token => end_of t - start_of t == weight token * c)
      (_generate_approximate_word_timings (lit "verse 99:7 of mercy") 6%Q)
      (split (lit "verse 99:7 of mercy")).
Proof.
  apply (estimate_shares_follow_weights (lit "verse 99:7 of mercy") 6).
  - discriminate.
  - reflexivity.
Defined.

(** ** Content type *)

Import Text.

Lemma startswith_iff (w p : str) :
  startswith w p = true <-> exists rest, w = p ++ rest.
Proof.
  revert w. induction p as [|a p IH]; intros w; simpl.
  - destruct w; split; eauto.
  - destruct w as [|b w].
    + split; [discriminate|intros [rest Heq]; discriminate].
    + simpl. rewrite andb_true_iff, IH. unfold chr_eqb. rewrite Ascii.eqb_eq.
      split.
      * intros [-> [rest ->]]. eauto.
      * intros [rest Heq]. inversion Heq. eauto.
Qed.

Lemma occurs_in_iff (sub s : str) :
  occurs_in sub s = true <-> exists pre post, s = pre ++ sub ++ post.
Proof.
  induction s as [|c s IH]; cbn [occurs_in].
  - rewrite orb_false_r, startswith_iff. split.
    + intros [rest Heq]. exists [], rest. exact Heq.
    + intros (pre & post & Heq). destruct pre; [eauto|discriminate].
  - rewrite orb_true_iff, IH, startswith_iff. split.
    + intros [[rest Heq]|(pre & post & ->)].
      * exists [], rest. exact Heq.
      * exists (c :: pre), post. reflexivity.
    + intros (pre & post & Heq). destruct pre as [|x pre].
      * left. eauto.
      * right. inversion Heq. eauto.
Qed.

Lemma occurs_in_trans (a b c : str) :
  occurs_in a b = true -> occurs_in b c = true -> occurs_in a c = true.
Proof.
  rewrite !occurs_in_iff. intros (p1 & q1 & ->) (p2 & q2 & ->).
  exists (p2 ++ p1), (q1 ++ q2). rewrite <- !app_assoc. reflexivity.
Qed.

(** X13.  Scene markers win and ignore case: a text in which a
    "descriptive" text occurs, whatever the case of its letters, is
    "descriptive" too, dialogue markers or not. *)
Theorem descriptive_is_inherited (part text : str) :
  occurs_in (lower part) (lower text) = true ->
  _detect_content_type part = lit "descriptive" ->
  _detect_content_type text = lit "descriptive".
Proof.
  intros Hocc. unfold _detect_content_type.
  destruct (existsb (fun marker => occurs_in marker (lower part)) scene_markers)
    eqn:Hpart.
  - intros _. apply existsb_exists in Hpart. destruct Hpart as (m & Hm & Hin).
    replace (existsb (fun marker => occurs_in marker (lower text)) scene_markers)
      with true; [reflexivity|].
    symmetry. apply existsb_exists. exists m. split; [exact Hm|].
    exact (occurs_in_trans _ _ _ Hin Hocc).
  - destruct (existsb _ dialogue_markers); discriminate.
Qed.

Lemma descriptive_is_inherited_witness :
  _detect_content_type (lit "He says: in this SCENE, nothing moves")
  = lit "descriptive".
Proof.
  apply (descriptive_is_inherited (lit "scene")
           (lit "He says: in this SCENE, nothing moves")); reflexivity.
Defined.

Lemma search_sound (r : regex) (s : str) :
  search r s = true -> exists pre rest, s = pre ++ rest /\ matches r rest = true.
Proof.
  induction s as [|c s IH]; cbn [search]; intros Hs.
  - rewrite orb_false_r in Hs. exists [], []. auto.
  - apply orb_prop in Hs. destruct Hs as [Hs|Hs].
    + exists [], (c :: s). auto.
    + destruct (IH Hs) as (pre & rest & -> & Hm). exists (c :: pre), rest. auto.
Qed.

Lemma citation_has_colon (s : str) :
  search citation_pattern s = true -> In ":"%char s.
Proof.
  intros Hs. apply search_sound in Hs. destruct Hs as (pre & rest & -> & Hm).
  apply matches_iff in Hm. destruct Hm as (m & post & -> & Hl).
  unfold citation_pattern in Hl.
  destruct Hl as (p1 & q1 & -> & _ & p2 & q2 & -> & _ & p3 & q3 & -> & _
                  & p4 & q4 & -> & (c & -> & Hc) & _).
  apply Ascii.eqb_eq in Hc. subst c.
  rewrite !in_app_iff. simpl. tauto.
Qed.

Lemma split_from_chars (s : str) : forall cur w c,
  In w (split_from cur s) -> In c w -> In c cur \/ In c s.
Proof.
  induction s as [|x s IH]; simpl; intros cur w c Hw Hc.
  - destruct cur as [|y cur]; [contradiction|].
    destruct Hw as [<-|[]]. left. apply in_rev. exact Hc.
  - destruct (isspace x).
    + destruct cur as [|y cur].
      * destruct (IH [] w c Hw Hc) as [[]|H]. auto.
      * destruct Hw as [<-|Hw]; [left; apply in_rev; exact Hc|].
        destruct (IH [] w c Hw Hc) as [[]|H]. auto.
    + destruct (IH (x :: cur) w c Hw Hc) as [[<-|H]|H]; auto.
Qed.

Lemma occurs_in_chr (c : ascii) (s : str) : In c s -> occurs_in [c] s = true.
Proof.
  intros Hin. apply occurs_in_iff. apply in_split in Hin.
  destruct Hin as (pre & post & ->). exists pre, post. reflexivity.
Qed.

(** X14.  A text with a citation or a verse reference is never
    "narrative": its colon is a dialogue marker. *)
Theorem references_are_not_narrative (text : str) :
  search citation_pattern text = true \/
  (exists token, In token (split text) /\
                 matches verse_reference_pattern token = true) ->
  _detect_content_type text = lit "descriptive" \/
  _detect_content_type text = lit "dialogue".
Proof.
  intros Href.
  assert (Hcolon : In ":"%char text).
  { destruct Href as [Hc|(token & Htok & Hm)]; [exact (citation_has_colon _ Hc)|].
    apply verse_has_colon in Hm.
    destruct (split_from_chars text [] token _ Htok Hm) as [[]|H]. exact H. }
  unfold _detect_content_type.
  destruct (existsb _ scene_markers); [left; reflexivity|]. right.
  replace (existsb (fun marker => occurs_in marker text) dialogue_markers)
    with true; [reflexivity|].
  symmetry. apply existsb_exists. exists (lit ":").
  split; [simpl; tauto|]. apply occurs_in_chr. exact Hcolon.
Qed.

Lemma references_are_not_narrative_witness :
  _detect_content_type (lit "Read 99:7-8 aloud") = lit "descriptive" \/
  _detect_content_type (lit "Read 99:7-8 aloud") = lit "dialogue".
Proof.
  apply (references_are_not_narrative (lit "Read 99:7-8 aloud")).
  right. exists (lit "99:7-8"). split; [simpl; tauto|reflexivity].
Defined.

(** ** Cache keys *)

Lemma lower_chr_isspace (c : ascii) : isspace (lower_chr c) = isspace c.
Proof. destruct c as [[] [] [] [] [] [] [] []]; reflexivity. Qed.

Lemma lower_chr_idempotent (c : ascii) : lower_chr (lower_chr c) = lower_chr c.
Proof. destruct c as [[] [] [] [] [] [] [] []]; reflexivity. Qed.

Lemma lower_idempotent (s : str) : lower (lower s) = lower s.
Proof.
  unfold lower. rewrite map_map. apply map_ext. apply lower_chr_idempotent.
Qed.

Lemma split_from_lower (s : str) : forall cur,
  split_from (lower cur) (lower s) = map lower (split_from cur s).
Proof.
  unfold lower. induction s as [|c s IH]; intros cur; simpl.
  - destruct cur as [|x cur]; simpl; [reflexivity|].
    rewrite map_app, map_rev. reflexivity.
  - rewrite lower_chr_isspace. destruct (isspace c).
    + destruct cur as [|x cur]; simpl.
      * exact (IH []).
      * pose proof (IH []) as IH0. simpl in IH0.
        rewrite IH0, map_app, map_rev. reflexivity.
    + exact (IH (c :: cur)).
Qed.

(** [text.lower().split()] lowers the tokens of [text.split()]. *)
Lemma split_lower (s : str) : split (lower s) = map lower (split s).
Proof. exact (split_from_lower s []). Qed.

Section CacheKeyFacts.
Variable provider_name : str.
Variable V : Type.
Variable json_dumps_sorted : list (str * V) -> str.
Variable md5_hexdigest : str -> str.

(** X15.  The cache key ignores letter case and the layout of white
    space: two texts with the same tokens up to case, and two voices equal
    up to case and surrounding space, get the same key. *)
Theorem cache_key_ignores_case_and_spacing (text1 text2 voice1 voice2 : str)
    (settings : option (list (str * V))) :
  map lower (split text1) = map lower (split text2) ->
  lower (strip voice1) = lower (strip voice2) ->
  _get_cache_key provider_name json_dumps_sorted md5_hexdigest
    text1 voice1 settings
  = _get_cache_key provider_name json_dumps_sorted md5_hexdigest
      text2 voice2 settings.
Proof.
  intros Htext Hvoice. unfold _get_cache_key.
  rewrite !split_lower, !split_strip, Htext, Hvoice. reflexivity.
Qed.

Lemma split_from_clean (s : str) : forall cur w,
  forallb (fun c => negb (isspace c)) cur = true ->
  In w (split_from cur s) -> clean w.
Proof.
  induction s as [|c s IH]; simpl; intros cur w Hcur Hw.
  - destruct cur as [|x cur]; [contradiction|]. destruct Hw as [<-|[]].
    split; [|rewrite forallb_rev; exact Hcur].
    intros Hr. apply (f_equal (@rev ascii)) in Hr.
    rewrite rev_involutive in Hr. discriminate.
  - destruct (isspace c) eqn:Hc.
    + destruct cur as [|x cur]; [exact (IH [] w eq_refl Hw)|].
      destruct Hw as [<-|Hw]; [|exact (IH [] w eq_refl Hw)].
      split; [|rewrite forallb_rev; exact Hcur].
      intros Hr. apply (f_equal (@rev ascii)) in Hr.
      rewrite rev_involutive in Hr. discriminate.
    + apply (IH (c :: cur) w); [|exact Hw]. simpl. rewrite Hc. exact Hcur.
Qed.

Lemma split_from_word (w rest : str) : forall cur,
  forallb (fun c => negb (isspace c)) w = true ->
  split_from cur (w ++ rest) = split_from (rev w ++ cur) rest.
Proof.
  induction w as [|c w IH]; simpl; intros cur Hw; [reflexivity|].
  apply andb_prop in Hw. destruct Hw as [Hc Hw].
  apply negb_true_iff in Hc. rewrite Hc, IH by exact Hw.
  rewrite <- app_assoc. reflexivity.
Qed.

Lemma split_from_end (cur : str) : cur <> [] -> split_from cur [] = [rev cur].
Proof. destruct cur; [congruence|reflexivity]. Qed.

Lemma split_from_space (cur rest : str) :
  cur <> [] -> split_from cur (" "%char :: rest) = rev cur :: split_from [] rest.
Proof. destruct cur; [congruence|reflexivity]. Qed.

(** [' '.join(words).split()] gives the words back. *)
Lemma split_join_space (words : list str) :
  (forall w, In w words -> clean w) -> split (join_space words) = words.
Proof.
  unfold split. induction words as [|w words IH]; intros Hclean; [reflexivity|].
  destruct (Hclean w (or_introl eq_refl)) as [Hne Hw].
  assert (Hcur : rev w ++ [] <> []).
  { rewrite app_nil_r. intros Hr. apply (f_equal (@rev ascii)) in Hr.
    rewrite rev_involutive in Hr. exact (Hne Hr). }
  assert (Hrev : rev (rev w ++ []) = w)
    by (rewrite app_nil_r; apply rev_involutive).
  destruct words as [|w' words].
  - change (join_space [w]) with w. rewrite <- (app_nil_r w) at 1.
    rewrite split_from_word by exact Hw.
    rewrite split_from_end by exact Hcur. rewrite Hrev. reflexivity.
  - change (join_space (w :: w' :: words))
      with (w ++ " "%char :: join_space (w' :: words)).
    rewrite split_from_word by exact Hw.
    rewrite split_from_space by exact Hcur. rewrite Hrev. f_equal.
    apply IH. intros x Hx. apply Hclean. right. exact Hx.
Qed.

Lemma clean_lower (w : str) : clean w -> clean (lower w).
Proof.
  intros [Hne Hw]. split.
  - destruct w; [congruence|discriminate].
  - unfold lower. rewrite forallb_forall in *. intros c Hc.
    apply in_map_iff in Hc. destruct Hc as (x & <- & Hx).
    rewrite lower_chr_isspace. exact (Hw x Hx).
Qed.

(** X16.  Normalising is idempotent: the text as the key holds it (lower
    case, tokens joined by single spaces) has the key of the text it came
    from. *)
Theorem cache_key_of_normalized_text (text voice : str)
    (settings : option (list (str * V))) :
  _get_cache_key provider_name json_dumps_sorted md5_hexdigest
    (join_space (split (lower (strip text)))) voice settings
  = _get_cache_key provider_name json_dumps_sorted md5_hexdigest
      text voice settings.
Proof.
  unfold _get_cache_key.
  rewrite !split_lower, !split_strip, split_join_space.
  - rewrite map_map, (map_ext _ _ lower_idempotent). reflexivity.
  - intros w Hw. apply in_map_iff in Hw. destruct Hw as (x & <- & Hx).
    apply clean_lower. exact (split_from_clean text [] x eq_refl Hx).
Qed.
End CacheKeyFacts.

Lemma cache_key_ignores_case_and_spacing_witness :
  _get_cache_key (lit "elevenlabs") (fun _ : list (str * unit) => lit "{}")
    (fun key_str => key_str) (lit "  Hello   World ") (lit "Daniel ") None
  = _get_cache_key (lit "elevenlabs") (fun _ : list (str * unit) => lit "{}")
      (fun key_str => key_str) (lit "hello world") (lit "daniel") None.
Proof.
  apply (cache_key_ignores_case_and_spacing (lit "elevenlabs") unit
           (fun _ => lit "{}") (fun key_str => key_str)); reflexivity.
Defined.

(** ** The audio cache *)

Import Cache.

Lemma str_eqb_eq (a b : str) : Dict.str_eqb a b = true <-> a = b.
Proof.
  unfold Dict.str_eqb. destruct (list_eq_dec ascii_dec a b); split;
    congruence.
Qed.

Lemma str_eqb_refl (a : str) : Dict.str_eqb a a = true.
Proof. apply str_eqb_eq. reflexivity. Qed.

Lemma str_eqb_neq (a b : str) : Dict.str_eqb a b = false <-> a <> b.
Proof.
  rewrite <- str_eqb_eq. destruct (Dict.str_eqb a b); split; congruence.
Qed.

Section DictFacts.
Variable V : Type.
Implicit Types (d : Dict.dict V) (key k : str) (v : V).

Lemma get_set_same d key v : Dict.get key (Dict.set key v d) = Some v.
Proof.
  induction d as [|[k u] d IH]; simpl.
  - rewrite str_eqb_refl. reflexivity.
  - destruct (Dict.str_eqb k key) eqn:Hk; simpl; rewrite Hk; auto.
Qed.

Lemma get_set_other d key k v :
  k <> key -> Dict.get k (Dict.set key v d) = Dict.get k d.
Proof.
  intros Hne. induction d as [|[k' u] d IH]; simpl.
  - replace (Dict.str_eqb key k) with false; [reflexivity|].
    symmetry. apply str_eqb_neq. congruence.
  - destruct (Dict.str_eqb k' key) eqn:Hk; simpl.
    + apply str_eqb_eq in Hk. subst k'.
      replace (Dict.str_eqb key k) with false; [reflexivity|].
      symmetry. apply str_eqb_neq. congruence.
    + rewrite IH. reflexivity.
Qed.

Lemma get_del_same d key : Dict.get key (Dict.del key d) = None.
Proof.
  unfold Dict.del. induction d as [|[k u] d IH]; simpl; [reflexivity|].
  destruct (Dict.str_eqb k key) eqn:Hk; simpl; [exact IH|].
  rewrite Hk. exact IH.
Qed.

Lemma get_del_other d key k :
  k <> key -> Dict.get k (Dict.del key d) = Dict.get k d.
Proof.
  intros Hne. unfold Dict.del. induction d as [|[k' u] d IH]; simpl;
    [reflexivity|].
  destruct (Dict.str_eqb k' key) eqn:Hk; simpl.
  - apply str_eqb_eq in Hk. subst k'.
    replace (Dict.str_eqb key k) with false; [exact IH|].
    symmetry. apply str_eqb_neq. congruence.
  - rewrite IH. reflexivity.
Qed.
End DictFacts.

Section AudioCacheFacts.
Context {F : Type} `{Arith F}.
Variable file_exists : str -> bool.
Variable path_str : str -> str.
Variable measure_duration : str -> option F.

(** X17.  Store, then look up: a result with a path, stored under a key,
    is what a lookup of the key returns while its file exists, with the
    path as [Path] spells it, [[]] for missing timings and a duration
    always there; the lookup leaves the cache alone. *)
Theorem cached_audio_round_trip (cache : Dict.dict audio) (cache_key p : str)
    (result : audio) :
  path result = Some p ->
  file_exists p = true ->
  exists cache',
    _cache_audio measure_duration cache cache_key result = Done cache' /\
    _get_cached_audio file_exists path_str cache' cache_key =
    (Done (Some {| path := Some (path_str p);
                   word_timings :=
                     Some (match word_timings result with
                           | Some w => w
                           | None => []
                           end);
                   duration := Some (ensured_duration measure_duration result) |}),
     cache').
Proof.
  intros Hp Hfile. unfold _cache_audio. rewrite Hp.
  eexists. split; [reflexivity|].
  unfold _get_cached_audio. rewrite get_set_same. simpl. rewrite Hfile.
  reflexivity.
Qed.

(** X18.  A lookup touches no other key, returns no entry whose file is
    gone, and after a miss the cache holds nothing under the key: a stale
    entry is dropped. *)
Theorem cached_audio_lookup (cache : Dict.dict audio) (cache_key : str) :
  (forall key, key <> cache_key ->
     Dict.get key (snd (_get_cached_audio file_exists path_str cache cache_key))
     = Dict.get key cache) /\
  (fst (_get_cached_audio file_exists path_str cache cache_key) = Done None ->
   Dict.get cache_key
     (snd (_get_cached_audio file_exists path_str cache cache_key)) = None) /\
  (forall found,
     fst (_get_cached_audio file_exists path_str cache cache_key)
     = Done (Some found) ->
     snd (_get_cached_audio file_exists path_str cache cache_key) = cache /\
     exists p, path found = Some (path_str p) /\ file_exists p = true).
Proof.
  unfold _get_cached_audio.
  destruct (Dict.get cache_key cache) as [cache_data|] eqn:Hget.
  - destruct (path cache_data) as [p|]; simpl.
    + destruct (file_exists p) eqn:Hfile; simpl.
      * split; [reflexivity|]. split; [discriminate|].
        intros found Hfound. inversion Hfound; subst found. simpl. eauto.
      * split; [intros key Hne; apply get_del_other; exact Hne|].
        split; [intros _; apply get_del_same|discriminate].
    + split; [reflexivity|]. split; discriminate.
  - simpl. split; [reflexivity|]. split; [intros _; exact Hget|discriminate].
Qed.
End AudioCacheFacts.

Lemma cached_audio_round_trip_witness :
  exists cache',
    _cache_audio (fun _ => Some 5%Q) [] (lit "k")
      {| path := Some (lit "out/a.mp3"); word_timings := None; duration := None |}
    = Done cache' /\
    _get_cached_audio (fun _ => true) (fun p => p) cache' (lit "k") =
    (Done (Some {| path := Some (lit "out/a.mp3"); word_timings := Some [];
                   duration := Some 5%Q |}),
     cache').
Proof.
  apply (cached_audio_round_trip (fun _ => true) (fun p => p) (fun _ => Some 5%Q)
           [] (lit "k") (lit "out/a.mp3")); reflexivity.
Defined.

(** ** Voices *)

Import Voices.

Lemma str_leb_total (a b : str) : str_leb a b = true \/ str_leb b a = true.
Proof.
  revert b. induction a as [|x a IH]; intros [|y b]; simpl; auto.
  destruct (nat_of_ascii x <? nat_of_ascii y)%nat eqn:Hxy; [auto|].
  destruct (nat_of_ascii y <? nat_of_ascii x)%nat eqn:Hyx; [auto|].
  apply IH.
Qed.

Lemma str_leb_trans (a b c : str) :
  str_leb a b = true -> str_leb b c = true -> str_leb a c = true.
Proof.
  revert b c. induction a as [|x a IH]; intros [|y b] [|z c]; simpl;
    try congruence.
  destruct (nat_of_ascii x <? nat_of_ascii y)%nat eqn:Hxy;
    destruct (nat_of_ascii y <? nat_of_ascii x)%nat eqn:Hyx;
    destruct (nat_of_ascii y <? nat_of_ascii z)%nat eqn:Hyz;
    destruct (nat_of_ascii z <? nat_of_ascii y)%nat eqn:Hzy;
    destruct (nat_of_ascii x <? nat_of_ascii z)%nat eqn:Hxz;
    destruct (nat_of_ascii z <? nat_of_ascii x)%nat eqn:Hzx;
    try congruence;
    rewrite ?Nat.ltb_lt, ?Nat.ltb_ge in *; try lia.
  apply IH.
Qed.

Lemma insert_sorted_In (x name : str) (names : list str) :
  In x (insert_sorted name names) <-> x = name \/ In x names.
Proof.
  induction names as [|first rest IH]; simpl.
  - intuition.
  - destruct (str_leb name first); simpl; [intuition|].
    rewrite IH. intuition.
Qed.

Lemma sorted_In (x : str) (names : list str) : In x (sorted names) <-> In x names.
Proof.
  unfold sorted. induction names as [|n names IH]; simpl; [tauto|].
  rewrite insert_sorted_In, IH. intuition.
Qed.

Lemma str_leb_refl (a : str) : str_leb a a = true.
Proof. destruct (str_leb_total a a); assumption. Qed.

Lemma insert_sorted_strongly (name : str) (names : list str) :
  StronglySorted (fun a b => str_leb a b = true) names ->
  StronglySorted (fun a b => str_leb a b = true) (insert_sorted name names).
Proof.
  induction names as [|first rest IH]; simpl; intros Hs.
  - constructor; constructor.
  - inversion Hs as [|? ? Hrest Hfirst]; subst.
    destruct (str_leb name first) eqn:Hle.
    + constructor; [exact Hs|]. constructor; [exact Hle|].
      revert Hfirst. apply Forall_impl. intros x Hx.
      exact (str_leb_trans _ _ _ Hle Hx).
    + constructor; [exact (IH Hrest)|].
      apply Forall_forall. intros x Hx. apply insert_sorted_In in Hx.
      destruct Hx as [->|Hx].
      * destruct (str_leb_total name first); congruence.
      * rewrite Forall_forall in Hfirst. exact (Hfirst x Hx).
Qed.

Lemma sorted_strongly (names : list str) :
  StronglySorted (fun a b => str_leb a b = true) (sorted names).
Proof.
  unfold sorted. induction names as [|n names IH]; simpl; [constructor|].
  apply insert_sorted_strongly. exact IH.
Qed.

Lemma name_in_iff (name : str) (names : list str) :
  name_in name names = true <-> In name names.
Proof.
  unfold name_in. rewrite existsb_exists. split.
  - intros (x & Hx & Heq). apply str_eqb_eq in Heq. subst x. exact Hx.
  - intros Hin. exists name. split; [exact Hin|apply str_eqb_refl].
Qed.

Lemma default_voice_daniel (voice_names : list str) :
  In (lit "Daniel") voice_names ->
  default_voice voice_names = Some (lit "Daniel").
Proof.
  intros Hin. unfold default_voice.
  apply (proj2 (sorted_In _ _)) in Hin.
  apply (proj2 (name_in_iff _ _)) in Hin. rewrite Hin. reflexivity.
Qed.

Lemma default_voice_least (voice_names : list str) :
  voice_names <> [] ->
  ~ In (lit "Daniel") voice_names ->
  exists first,
    default_voice voice_names = Some first /\
    In first voice_names /\
    forall other, In other voice_names -> str_leb first other = true.
Proof.
  intros Hne Habsent. unfold default_voice.
  destruct (name_in (lit "Daniel") (sorted voice_names)) eqn:Hd.
  - apply (proj1 (name_in_iff _ _)) in Hd.
    apply (proj1 (sorted_In _ _)) in Hd. contradiction.
  - pose proof (sorted_strongly voice_names) as Hs.
    destruct (sorted voice_names) as [|first rest] eqn:Hsorted.
    + destruct voice_names as [|n names]; [congruence|].
      assert (Hin : In n (sorted (n :: names)))
        by (apply sorted_In; left; reflexivity).
      rewrite Hsorted in Hin. contradiction.
    + exists first. split; [reflexivity|].
      split; [apply sorted_In; rewrite Hsorted; left; reflexivity|].
      intros other Hother.
      apply sorted_In in Hother. rewrite Hsorted in Hother.
      inversion Hs as [|? ? _ Hfirst]; subst.
      destruct Hother as [<-|Hother]; [apply str_leb_refl|].
      rewrite Forall_forall in Hfirst. exact (Hfirst other Hother).
Qed.

(** X19.  The default voice is "Daniel" when a voice has that very name,
    and otherwise the first name in code point order, which need not be
    the first voice of the provider's list; a non-empty list always gives
    one, and it is a name of the list. *)
Theorem default_voice_choice (voice_names : list str) :
  voice_names <> [] ->
  exists chosen,
    default_voice voice_names = Some chosen /\
    In chosen voice_names /\
    (In (lit "Daniel") voice_names -> chosen = lit "Daniel") /\
    (~ In (lit "Daniel") voice_names ->
     forall other, In other voice_names -> str_leb chosen other = true).
Proof.
  intros Hne.
  destruct (in_dec (list_eq_dec ascii_dec) (lit "Daniel") voice_names)
    as [Hin|Habsent].
  - exists (lit "Daniel"). split; [apply default_voice_daniel; exact Hin|].
    split; [exact Hin|]. split; [reflexivity|]. intros Hno. contradiction.
  - destruct (default_voice_least voice_names Hne Habsent)
      as (first & Hd & Hin & Hleast).
    exists first. split; [exact Hd|]. split; [exact Hin|].
    split; [intros Hyes; contradiction|]. intros _. exact Hleast.
Qed.

Lemma default_voice_choice_witness :
  exists chosen,
    default_voice [lit "Rachel"; lit "Adam"; lit "Bella"] = Some chosen /\
    In chosen [lit "Rachel"; lit "Adam"; lit "Bella"] /\
    (In (lit "Daniel") [lit "Rachel"; lit "Adam"; lit "Bella"] ->
     chosen = lit "Daniel") /\
    (~ In (lit "Daniel") [lit "Rachel"; lit "Adam"; lit "Bella"] ->
     forall other, In other [lit "Rachel"; lit "Adam"; lit "Bella"] ->
       str_leb chosen other = true).
Proof.
  apply (default_voice_choice [lit "Rachel"; lit "Adam"; lit "Bella"]).
  discriminate.
Defined.

Lemma find_voice_none (voices : list voice) (voice_name : str) :
  (forall v, In v voices -> lower (name v) <> lower voice_name) ->
  find_voice voices voice_name = None.
Proof.
  induction voices as [|v voices IH]; simpl; intros Hall; [reflexivity|].
  replace (Dict.str_eqb (lower (name v)) (lower voice_name)) with false.
  - apply IH. intros u Hu. apply Hall. right. exact Hu.
  - symmetry. apply str_eqb_neq. apply Hall. left. reflexivity.
Qed.

(** X20.  The fallback is never used: when no voice is called Daniel in
    any case of letters, the initialisation settles on a fallback voice,
    and the lookup of the voice a request asks for still finds none, which
    raises [TTSError]. *)
Theorem fallback_voice_is_not_requested (voices : list voice) :
  voices <> [] ->
  (forall v, In v voices -> lower (name v) <> lit "daniel") ->
  (exists fallback,
     default_voice (map name voices) = Some fallback /\
     fallback <> requested_voice /\
     In fallback (map name voices)) /\
  find_voice voices requested_voice = None.
Proof.
  intros Hne Hnone. split; [|apply find_voice_none; exact Hnone].
  assert (Habsent : ~ In (lit "Daniel") (map name voices)).
  { intros Hin. apply in_map_iff in Hin. destruct Hin as (v & Hv & Hin).
    apply (Hnone v Hin). rewrite Hv. reflexivity. }
  destruct (default_voice_least (map name voices))
    as (chosen & Hc & Hin & _).
  - destruct voices; [congruence|discriminate].
  - exact Habsent.
  - exists chosen. split; [exact Hc|]. split; [|exact Hin].
    intros Heq. apply Habsent. rewrite Heq in Hin. exact Hin.
Qed.

Lemma fallback_voice_is_not_requested_witness :
  (exists fallback,
     default_voice
       (map name [{| voice_id := lit "v1"; name := lit "Rachel" |};
                  {| voice_id := lit "v2"; name := lit "Adam" |}])
       = Some fallback /\
     fallback <> requested_voice /\
     In fallback
       (map name [{| voice_id := lit "v1"; name := lit "Rachel" |};
                  {| voice_id := lit "v2"; name := lit "Adam" |}])) /\
  find_voice [{| voice_id := lit "v1"; name := lit "Rachel" |};
              {| voice_id := lit "v2"; name := lit "Adam" |}]
    requested_voice = None.
Proof.
  apply (fallback_voice_is_not_requested
           [{| voice_id := lit "v1"; name := lit "Rachel" |};
            {| voice_id := lit "v2"; name := lit "Adam" |}]).
  - discriminate.
  - intros v [<-|[<-|[]]]; vm_compute; discriminate.
Defined.

(** ** The generation parameters *)

Import Gemini.

Lemma add_missing_loop {V} (key : str) (config params : Dict.dict V) :
  Dict.get key (fold_left (@add_missing V) config params)
  = match Dict.get key params with
    | Some v => Some v
    | None => Dict.get key config
    end.
Proof.
  revert params. induction config as [|[k v] config IH]; intros params.
  - simpl. destruct (Dict.get key params); reflexivity.
  - cbn [fold_left]. rewrite IH. unfold add_missing, Dict.has. simpl fst.
    simpl snd. cbn [Dict.get].
    destruct (Dict.str_eqb k key) eqn:Hk.
    + apply str_eqb_eq in Hk. subst k.
      destruct (Dict.get key params) eqn:Hp.
      * rewrite Hp. reflexivity.
      * rewrite get_set_same. reflexivity.
    + assert (Hne : key <> k).
      { intros ->. rewrite str_eqb_refl in Hk. discriminate. }
      destruct (Dict.get k params) eqn:Hp.
      * reflexivity.
      * rewrite get_set_other by exact Hne. reflexivity.
Qed.

Section GenerationParams.
Variable V : Type.
Variable of_str : str -> V.
Variable of_int : Z -> V.
Variable temperature_default : V.

(** X21.  In the parameters of [generate_media] the prompt and the model
    are the call's own, whatever the configuration holds under these
    keys; every other key of the configuration has the configuration's
    value; a key the configuration lacks has the value it has when no
    configuration is given (the five defaults, or none). *)
Theorem generation_params_lookup (prompt : str)
    (config : option (Dict.dict V)) :
  Dict.get (lit "prompt")
    (generation_params of_str of_int temperature_default prompt config)
  = Some (of_str prompt) /\
  Dict.get (lit "model")
    (generation_params of_str of_int temperature_default prompt config)
  = Some (of_str GEMINI_MODEL) /\
  forall key, key <> lit "prompt" -> key <> lit "model" ->
    Dict.get key
      (generation_params of_str of_int temperature_default prompt config)
    = match Dict.get key (or_empty config) with
      | Some v => Some v
      | None =>
          Dict.get key
            (generation_params of_str of_int temperature_default prompt None)
      end.
Proof.
  unfold generation_params. cbv zeta.
  split; [rewrite add_missing_loop; reflexivity|].
  split; [rewrite add_missing_loop; reflexivity|].
  intros key Hprompt Hmodel. rewrite !add_missing_loop.
  replace (or_empty None) with (@nil (str * V)) by reflexivity.
  generalize (or_empty config). intros c.
  unfold literal_params, get_default. cbn [Dict.get].
  replace (Dict.str_eqb (lit "prompt") key) with false
    by (symmetry; apply str_eqb_neq; congruence).
  replace (Dict.str_eqb (lit "model") key) with false
    by (symmetry; apply str_eqb_neq; congruence).
  repeat match goal with
  | |- context [Dict.str_eqb ?k key] =>
      let Hk := fresh "Hk" in
      destruct (Dict.str_eqb k key) eqn:Hk;
      [apply str_eqb_eq in Hk; subst key;
       match goal with
       | |- context [Dict.get ?k' c] => destruct (Dict.get k' c)
       end; reflexivity|]
  end.
  destruct (Dict.get key c); reflexivity.
Qed.

End GenerationParams.

(** ** The voice settings of a content type *)

Import Settings.

(** X22.  The settings lookup of [generate_speech] raises no [KeyError]:
    every text has a content type the table knows, and its settings hold
    the four keys, so they are never empty and always enter the cache
    key. *)
Theorem content_settings_found (normalized_text : str) :
  exists settings,
    content_settings normalized_text = Some settings /\
    map fst settings
    = [lit "stability"; lit "similarity_boost"; lit "style";
       lit "use_speaker_boost"].
Proof.
  unfold content_settings, _detect_content_type.
  destruct (existsb _ scene_markers); [eexists; split; reflexivity|].
  destruct (existsb _ dialogue_markers); eexists; split; reflexivity.
Qed.
